(** * Optimizer construction in [bycha.optim]

    A shallow embedding of [build_optimizer] (src/bycha/optim/__init__.py)
    and of the objects it assembles, followed by the verification of the
    properties stated for the optimizer construction subsystem.

    Conventions of the embedding:
    - a Python dictionary is a [gmap string value]; the dictionaries the
      variable [configs] is bound to live in a store indexed by locations,
      so that aliasing between the caller's mapping and the copies made by
      the function is explicit;
    - a Python exception is a value of [exn]; a computation is a function
      from the program state to a result (normal return or raised
      exception) and the state reached, effects performed before a raise
      are kept;
    - calls into collaborators defined outside the file (logger, rate
      scheduler, torch, horovod, apex, the handle class) are recorded, in
      order, in the trace of the state; whether such a call raises is
      decided by an oracle of the environment. *)

From Stdlib Require Import Ascii String QArith.
From stdpp Require Import base option list gmap strings.
Close Scope Q_scope.
Set Warnings "-register-all,-clear-no-such-hyp".

(** ** Python values *)

(** Values found in a configuration mapping and produced by evaluating
    its entries: None, booleans, numbers, strings, lists (tuples are
    represented as lists) and nested mappings. *)
Inductive value :=
| VNone
| VBool (b : bool)
| VInt (z : Z)
| VFloat (q : Q)
| VStr (s : string)
| VList (l : list value)
| VDict (d : list (string * value)).

Abbreviation dict := (gmap string value).

(** Exceptions. [KeyError], [AttributeError], [TypeError] and
    [RuntimeError] are the ones the statements of [build_optimizer] raise
    themselves; [OtherError] stands for any other exception, raised inside
    a collaborator or by an evaluated expression. *)
Inductive exn :=
| KeyError (key : string)
| AttributeError (attr : string)
| TypeError (msg : string)
| RuntimeError (msg : string)
| OtherError (name : string).

Inductive result (A : Type) :=
| Ok (a : A)
| Raise (e : exn).
Arguments Ok {A} a.
Arguments Raise {A} e.

Definition raises {A} (r : result A) : Prop := ∃ e, r = Raise e.

(** ** Strings: [str.lower] and the [in] operator *)

(** [str.lower] on ASCII letters; other bytes are left as they are. *)
Definition lower_ascii (a : ascii) : ascii :=
  let n := nat_of_ascii a in
  if (65 <=? n)%nat && (n <=? 90)%nat then ascii_of_nat (n + 32) else a.

Fixpoint lower (s : string) : string :=
  match s with
  | EmptyString => EmptyString
  | String a r => String (lower_ascii a) (lower r)
  end.

(** [nd in n] for two strings: [nd] occurs in [n] as a contiguous run. *)
Fixpoint str_in (nd n : string) : bool :=
  String.prefix nd n ||
  match n with
  | EmptyString => false
  | String _ r => str_in nd r
  end.

(** The characters of a string, as iterating over it yields them. *)
Fixpoint chars (s : string) : list value :=
  match s with
  | EmptyString => []
  | String a r => VStr (String a EmptyString) :: chars r
  end.

(** [iter(v)]: lists yield their elements, strings their characters,
    mappings their keys; the other values are not iterable. *)
Definition py_iter (v : value) : result (list value) :=
  match v with
  | VList l => Ok l
  | VStr s => Ok (chars s)
  | VDict d => Ok (VStr <$> d.*1)
  | _ => Raise (TypeError "object is not iterable")
  end.

(** [any(nd in n for nd in nds)] once [nds] is being iterated: stops at the
    first hit; a left operand that is not a string makes [in] raise. *)
Fixpoint any_in (nds : list value) (n : string) : result bool :=
  match nds with
  | [] => Ok false
  | VStr nd :: rest => if str_in nd n then Ok true else any_in rest n
  | _ :: _ => Raise (TypeError "'in <string>' requires string as left operand")
  end.

(** [any(nd in n for nd in no_decay)] for a parameter name [n]. *)
Definition any_no_decay (no_decay : value) (n : string) : result bool :=
  match py_iter no_decay with
  | Ok nds => any_in nds n
  | Raise e => Raise e
  end.

(** ** Objects assembled by [build_optimizer] *)

(** A parameter tensor is identified by a number. *)
Definition tensor := nat.

(** A model: the (name, tensor) pairs [named_parameters()] enumerates, and
    whether [amp.initialize] has patched it. *)
Record model := Model {
  m_named : list (string * tensor);
  m_amp : bool
}.

(** [model.named_parameters()] and [model.parameters()] return generators:
    a generator is the list of the items it has yet to yield. *)
Definition generator (A : Type) := list A.

Definition named_parameters (m : model) : generator (string * tensor) := m_named m.
Definition parameters (m : model) : generator tensor := (m_named m).*2.

(** [[p for n, p in gen if keep n]]: runs the generator to its end, so the
    generator is left exhausted; an exception raised by the condition
    aborts the comprehension. *)
Fixpoint comprehension (keep : string → result bool)
    (gen : generator (string * tensor)) : result (list tensor) * generator (string * tensor) :=
  match gen with
  | [] => (Ok [], [])
  | (n, p) :: rest =>
      match keep n with
      | Raise e => (Raise e, rest)
      | Ok b =>
          match comprehension keep rest with
          | (Ok ps, gen') => (Ok (if b then p :: ps else ps), gen')
          | (Raise e, gen') => (Raise e, gen')
          end
      end
  end.

Definition result_negb (r : result bool) : result bool :=
  match r with Ok b => Ok (negb b) | Raise e => Raise e end.

Record group := Group {
  params : list tensor;
  weight_decay : value
}.

(** What is passed as first argument of the optimizer class: either the
    explicit list of two groups or the generator [model.parameters()]. *)
Inductive grouped :=
| ParamGroups (gs : list group)
| Parameters (ps : generator tensor).

(** The parameter groups seen by the optimizer: a plain sequence of
    tensors is one group. *)
Definition groups_of (g : grouped) : list (list tensor) :=
  match g with
  | ParamGroups gs => params <$> gs
  | Parameters ps => [ps]
  end.

(** A class object is identified by its name. *)
Definition cls := string.

Inductive compression := Compression_fp16.

(** Keyword arguments collected in [hvd_kwargs]; [None] is an absent key. *)
Record hvd_kwargs := HvdKwargs {
  backward_passes_per_step : option value;
  hvd_compression : option compression
}.

Record scheduler := Scheduler {
  sched_conf : value;
  sched_built : bool
}.

Inductive optimizer :=
| TorchOptimizer (c : cls) (g : grouped) (lr : value) (kw : dict)
| DistributedOptimizer (o : optimizer) (named : list (string * tensor)) (kw : hvd_kwargs)
| AmpOptimizer (o : optimizer) (opt_level : string) (num_losses : value).

(** The handle [bycha.optim.optimizer.Optimizer(model=..., optimizer=...,
    lr_scheduler=..., **optimizer_kwargs)]. *)
Record handle := Handle {
  h_model : model;
  h_optimizer : optimizer;
  h_lr_scheduler : scheduler;
  h_kwargs : dict
}.

(** Calls into collaborators, with their arguments. *)
Inductive call :=
| logger_info (name : value) (configs : dict)
| create_rate_scheduler (lr : value)
| lr_scheduler_build (s : scheduler)
| cls_init (c : cls) (g : grouped) (lr : value) (kw : dict)
| hvd_DistributedOptimizer (o : optimizer) (named : list (string * tensor)) (kw : hvd_kwargs)
| hvd_broadcast_parameters (m : model) (root_rank : nat)
| hvd_broadcast_optimizer_state (o : optimizer) (root_rank : nat)
| amp_initialize (m : model) (o : optimizer) (opt_level : string) (num_losses : value)
| Optimizer_init (m : model) (o : optimizer) (s : scheduler) (kw : dict).

(** ** Program state and computations *)

Definition loc := nat.

Record state := State {
  heap : list dict;
  trace : list call
}.

Definition M (A : Type) : Type := state → result A * state.

Global Instance M_ret : MRet M := λ A x σ, (Ok x, σ).
Global Instance M_bind : MBind M := λ A B f m σ,
  match m σ with
  | (Ok x, σ') => f x σ'
  | (Raise e, σ') => (Raise e, σ')
  end.

Definition raise {A} (e : exn) : M A := λ σ, (Raise e, σ).

Definition lift {A} (r : result A) : M A := λ σ, (r, σ).

(** The dictionary stored at a location. *)
Definition load (l : loc) : M dict := λ σ, (Ok (default ∅ (heap σ !! l)), σ).

Definition store (l : loc) (d : dict) : M unit := λ σ,
  (Ok (), State (<[l := d]> (heap σ)) (trace σ)).

(** A new dictionary object. *)
Definition alloc (d : dict) : M loc := λ σ,
  (Ok (length (heap σ)), State (heap σ ++ [d]) (trace σ)).

(** [copy.deepcopy(configs)]: a new object with the same contents. *)
Definition deepcopy (l : loc) : M loc := d ← load l; alloc d.

(** [d.pop(k)] *)
Definition dict_pop (l : loc) (k : string) : M value :=
  d ← load l;
  match d !! k with
  | Some v => store l (delete k d);; mret v
  | None => raise (KeyError k)
  end.

(** [k in d] *)
Definition dict_contains (l : loc) (k : string) : M bool :=
  d ← load l; mret (bool_decide (is_Some (d !! k))).

(** [d[k] = v] *)
Definition dict_set (l : loc) (k : string) (v : value) : M unit :=
  d ← load l; store l (<[k := v]> d).

Fixpoint for_each {A} (xs : list A) (body : A → M unit) : M unit :=
  match xs with
  | [] => mret ()
  | x :: rest => body x;; for_each rest body
  end.

(** ** The environment of [build_optimizer] *)

(** [bycha.utils.runtime.Environment()] *)
Record environment := Environment {
  distributed_world : Z;
  fp16 : bool
}.

Record externals := Externals {
  (** the builtin [eval] on the strings that denote expressions which
      neither read the local variables of [build_optimizer] nor change
      anything (literals among them): a result or an exception, fixed by
      the string; for the other expressions see [frame_eval] *)
  py_eval : string → result value;
  (** [lr_scheduler.rate] of a scheduler created from a configuration *)
  rate : scheduler → value;
  (** the registry of [setup_registry('optim', ...)] *)
  registry : gmap string cls;
  (** the attributes of the module [torch.optim] *)
  torch_optim : gmap string cls;
  (** [getfullargspec(Optimizer).args[4:]], the keyword parameters of the
      handle class *)
  handle_args : list string;
  (** whether a call into a collaborator raises *)
  fails : call → option exn
}.

Section build_optimizer.
Context (X : externals) (env : environment).

(** A call into a collaborator: it raises, or completes and is recorded. *)
Definition invoke (c : call) : M unit := λ σ,
  match fails X c with
  | Some e => (Raise e, σ)
  | None => (Ok (), State (heap σ) (trace σ ++ [c]))
  end.

(** [eval(v)], for the expressions [py_eval] covers: the builtin takes a
    string (our values have neither bytes nor code objects). *)
Definition eval (v : value) : result value :=
  match v with
  | VStr s => py_eval X s
  | _ => Raise (TypeError "eval() arg 1 must be a string, bytes or code object")
  end.

(** The body of the first loop:
    [try: v = eval(v)  except: pass  finally: kwargs[k] = v], for the
    expressions [py_eval] covers. With them the loop has no effect but the
    assignments to [kwargs]; [evaluate_items] is the loop for expressions
    that read the frame or change the dictionaries. *)
Definition try_eval (v : value) : value :=
  match eval v with
  | Ok v' => v'
  | Raise _ => v
  end.

(** [for key in args: if key in configs: optimizer_kwargs[key] = configs.pop(key)] *)
Fixpoint pop_handle_args (configs : loc) (args : list string) (optimizer_kwargs : dict) : M dict :=
  match args with
  | [] => mret optimizer_kwargs
  | key :: rest =>
      b ← dict_contains configs key;
      if b : bool then
        v ← dict_pop configs key;
        pop_handle_args configs rest (<[key := v]> optimizer_kwargs)
      else pop_handle_args configs rest optimizer_kwargs
  end.

(** [if name.lower() in registry: cls = registry[name.lower()]
     else: cls = getattr(importlib.import_module('torch.optim'), name)] *)
Definition resolve_cls (name : value) : result cls :=
  match name with
  | VStr s =>
      match registry X !! lower s with
      | Some c => Ok c
      | None =>
          match torch_optim X !! s with
          | Some c => Ok c
          | None => Raise (AttributeError s)
          end
      end
  | _ => Raise (AttributeError "lower")
  end.

(** The branch [if 'no_decay' in configs: ... else: ...]. *)
Definition group_parameters (m : model) (configs : loc) : M grouped :=
  b ← dict_contains configs "no_decay";
  if b : bool then
    let gen := named_parameters m in
    no_decay ← dict_pop configs "no_decay";
    weight_decay ← dict_pop configs "weight_decay";
    let '(r1, gen) := comprehension (λ n, result_negb (any_no_decay no_decay n)) gen in
    decayed ← lift r1;
    let '(r2, gen) := comprehension (λ n, any_no_decay no_decay n) gen in
    undecayed ← lift r2;
    mret (ParamGroups [Group decayed weight_decay; Group undecayed (VFloat 0)])
  else mret (Parameters (parameters m)).

(** [hvd_kwargs]: [backward_passes_per_step] is set when [optimizer_kwargs]
    has an [update_frequency], [compression] when [env.fp16 and not
    enable_apex]. *)
Definition hvd_kwargs_of (enable_apex : bool) (optimizer_kwargs : dict) : hvd_kwargs :=
  HvdKwargs (optimizer_kwargs !! "update_frequency")
    (if fp16 env && negb enable_apex then Some Compression_fp16 else None).

(** The block [if env.distributed_world > 1: ...]. *)
Definition distribute (m : model) (enable_apex : bool) (optimizer_kwargs : dict)
    (o : optimizer) : M optimizer :=
  if bool_decide (distributed_world env > 1)%Z then
    let kw := hvd_kwargs_of enable_apex optimizer_kwargs in
    let named := named_parameters m in
    invoke (hvd_DistributedOptimizer o named kw);;
    let o := DistributedOptimizer o named kw in
    invoke (hvd_broadcast_parameters m 0);;
    invoke (hvd_broadcast_optimizer_state o 0);;
    mret o
  else mret o.

(** The block [if enable_apex: ...]. *)
Definition apex (m : model) (enable_apex : bool) (optimizer_kwargs : dict)
    (o : optimizer) : M (model * optimizer) :=
  if enable_apex then
    let update_frequency := default (VInt 1) (optimizer_kwargs !! "update_frequency") in
    invoke (amp_initialize m o "O1" update_frequency);;
    mret (Model (m_named m) true, AmpOptimizer o "O1" update_frequency)
  else mret (m, o).

(** The first statements, up to [configs = kwargs]: the class name and
    the dictionary the variable [configs] is bound to from there on. *)
Definition resolve_configs (configs : loc) : M (value * loc) :=
  configs ← deepcopy configs;
  name ← dict_pop configs "class";
  kwargs ← alloc ∅;
  items ← load configs;
  for_each (map_to_list items) (λ '(k, v), dict_set kwargs k (try_eval v));;
  mret (name, kwargs).

(** The statements from the logging of the resolved configuration to the
    [return], with [configs] bound to the evaluated dictionary. *)
Definition assemble (m : model) (enable_apex : bool) (name : value) (configs : loc)
    : M (model * handle) :=
  logged ← load configs;
  invoke (logger_info name logged);;
  lr ← dict_pop configs "lr";
  invoke (create_rate_scheduler lr);;
  let lr_scheduler := Scheduler lr false in
  invoke (lr_scheduler_build lr_scheduler);;
  let lr_scheduler := Scheduler lr true in
  optimizer_kwargs ← pop_handle_args configs (handle_args X) ∅;
  c ← lift (resolve_cls name);
  grouped_parameters ← group_parameters m configs;
  kw ← load configs;
  invoke (cls_init c grouped_parameters (rate X lr_scheduler) kw);;
  let o := TorchOptimizer c grouped_parameters (rate X lr_scheduler) kw in
  o ← distribute m enable_apex optimizer_kwargs o;
  '(m, o) ← apex m enable_apex optimizer_kwargs o;
  let optimizer_kwargs := <["enable_apex" := VBool enable_apex]> optimizer_kwargs in
  invoke (Optimizer_init m o lr_scheduler optimizer_kwargs);;
  mret (m, Handle m o lr_scheduler optimizer_kwargs).

Definition build_optimizer (m : model) (configs : loc) (enable_apex : bool)
    : M (model * handle) :=
  '(name, configs) ← resolve_configs configs;
  assemble m enable_apex name configs.

End build_optimizer.

(** ** Pure descriptions of the loops

    Used to state what the loops of [build_optimizer] compute. *)

(** The dictionary built by the assignments [kwargs[k] = f v] of a loop
    over the items [xs], starting from [acc]. *)
Definition set_all (f : value → value) (acc : dict) (xs : list (string * value)) : dict :=
  foldl (λ a kv, <[kv.1 := f kv.2]> a) acc xs.

(** The keys of [args] moved, in order, from [kw] to [okw]. *)
Definition split_args (args : list string) (kw okw : dict) : dict * dict :=
  foldl (λ '(kw, okw) key,
           match kw !! key with
           | Some v => (delete key kw, <[key := v]> okw)
           | None => (kw, okw)
           end) (kw, okw) args.

(** ** Local reasoning about [assemble]

    [assemble] works on one dictionary, the one [configs] is bound to, and
    on the trace. [local X l kw t m Q] says: started in a state where the
    object at [l] is [kw] and the trace is [t], the computation [m] changes
    the store at most at [l], and its result, the final object at [l] and
    the final trace satisfy [Q]. *)

Definition local {A} (l : loc) (kw : dict) (t : list call) (m : M A)
    (Q : result A → dict → list call → Prop) : Prop :=
  ∀ σ, heap σ !! l = Some kw → trace σ = t →
    ∃ kw', heap (m σ).2 = <[l := kw']> (heap σ) ∧ Q (m σ).1 kw' (trace (m σ).2).

(** The result of [group_parameters] and what it leaves of the dictionary,
    as functions of the dictionary [configs] is bound to. *)
Definition partition_parameters (m : model) (kw : dict) : result grouped * dict :=
  match kw !! "no_decay" with
  | None => (Ok (Parameters (parameters m)), kw)
  | Some no_decay =>
      let kw1 := delete "no_decay" kw in
      match kw1 !! "weight_decay" with
      | None => (Raise (KeyError "weight_decay"), kw1)
      | Some weight_decay =>
          let kw2 := delete "weight_decay" kw1 in
          let '(r1, gen) := comprehension (λ n, result_negb (any_no_decay no_decay n))
                              (named_parameters m) in
          match r1 with
          | Raise e => (Raise e, kw2)
          | Ok decayed =>
              let '(r2, gen) := comprehension (λ n, any_no_decay no_decay n) gen in
              match r2 with
              | Raise e => (Raise e, kw2)
              | Ok undecayed =>
                  (Ok (ParamGroups [Group decayed weight_decay;
                                    Group undecayed (VFloat 0)]), kw2)
              end
          end
      end
  end.

(** ** Kinds of calls *)

(** Calls into horovod: the wrapping and the two broadcasts. *)
Definition is_hvd (c : call) : bool :=
  match c with
  | hvd_DistributedOptimizer _ _ _
  | hvd_broadcast_parameters _ _
  | hvd_broadcast_optimizer_state _ _ => true
  | _ => false
  end.

(** Calls that construct an optimizer, a wrapper around one, or the handle. *)
Definition constructs_optimizer (c : call) : bool :=
  match c with
  | cls_init _ _ _ _
  | hvd_DistributedOptimizer _ _ _
  | amp_initialize _ _ _ _
  | Optimizer_init _ _ _ _ => true
  | _ => false
  end.

(** Calls that create or build the rate scheduler. *)
Definition constructs_schedule (c : call) : bool :=
  match c with
  | create_rate_scheduler _ | lr_scheduler_build _ => true
  | _ => false
  end.

(** ** What a successful run produces

    The objects and the calls of the blocks of [assemble], as functions of
    the values the blocks work on. *)

Section outcome.
Context (X : externals) (env : environment).

Definition distributed (m : model) (enable_apex : bool) (okw : dict) (raw : optimizer)
    : optimizer :=
  if bool_decide (distributed_world env > 1)%Z then
    DistributedOptimizer raw (named_parameters m) (hvd_kwargs_of env enable_apex okw)
  else raw.

Definition distribute_calls (m : model) (enable_apex : bool) (okw : dict) (raw : optimizer)
    : list call :=
  if bool_decide (distributed_world env > 1)%Z then
    [hvd_DistributedOptimizer raw (named_parameters m) (hvd_kwargs_of env enable_apex okw);
     hvd_broadcast_parameters m 0;
     hvd_broadcast_optimizer_state (distributed m enable_apex okw raw) 0]
  else [].

Definition num_losses (okw : dict) : value := default (VInt 1) (okw !! "update_frequency").

Definition amp_model (m : model) (enable_apex : bool) : model :=
  if enable_apex then Model (m_named m) true else m.

Definition amp_optimizer (enable_apex : bool) (okw : dict) (o : optimizer) : optimizer :=
  if enable_apex then AmpOptimizer o "O1" (num_losses okw) else o.

Definition apex_calls (m : model) (enable_apex : bool) (okw : dict) (o : optimizer)
    : list call :=
  if enable_apex then [amp_initialize m o "O1" (num_losses okw)] else [].

(** The outcome of a successful [assemble] started with the class name
    [name] and the evaluated dictionary [kw]: the scheduler configuration
    [lr], the class [c] and the parameter groups [g] being those the run
    found. *)
Record outcome := Outcome {
  out_model : model;
  out_handle : handle;
  out_calls : list call
}.

Definition success (m : model) (enable_apex : bool) (name : value) (kw : dict)
    (lr : value) (c : cls) (g : grouped) : outcome :=
  let sa := split_args (handle_args X) (delete "lr" kw) ∅ in
  let okw := sa.2 in
  let sch := Scheduler lr true in
  let rest := (partition_parameters m sa.1).2 in
  let raw := TorchOptimizer c g (rate X sch) rest in
  let o1 := distributed m enable_apex okw raw in
  let o2 := amp_optimizer enable_apex okw o1 in
  let m' := amp_model m enable_apex in
  let okw' := <["enable_apex" := VBool enable_apex]> okw in
  Outcome m' (Handle m' o2 sch okw')
    ([logger_info name kw; create_rate_scheduler lr;
      lr_scheduler_build (Scheduler lr false);
      cls_init c g (rate X sch) rest]
     ++ distribute_calls m enable_apex okw raw
     ++ apex_calls m enable_apex okw o1
     ++ [Optimizer_init m' o2 sch okw']).

End outcome.

(** ** The handle, as the specification describes it *)





Section resume.
(** Parameter values, optimizer state, the input of one step (the
    gradients) and learning rates. *)
Context {Params OptState Input Rate : Type}.
(** The schedule policy, a function of the step counter (§4.2), and one
    update of the underlying optimizer at a given rate; both are fixed by
    the configuration. *)
Context (rate_at : nat → Rate)
  (update : Rate → Input → Params * OptState → Params * OptState).

(** Modelled from the spec: a handle at work (the class
    [bycha.optim.optimizer.Optimizer] is not among the sources). By §3 it
    owns the underlying optimizer, whose state is [run_state], and the rate
    schedule, whose step counter is [run_steps]; it does not own the model,
    whose parameter values are [run_params]. *)
Record running := Running {
  run_params : Params;
  run_state : OptState;
  run_steps : nat
}.

(** Modelled from the spec, §4.7: [step()] sets the rate to the schedule's
    current value, advances the underlying optimizer by one update, then
    advances the schedule's step counter. *)
Definition handle_step (g : Input) (x : running) : running :=
  let '(p, s) := update (rate_at (run_steps x)) g (run_params x, run_state x) in
  Running p s (S (run_steps x)).

(** Modelled from the spec, §4.7: [state_dict()] serializes the underlying
    optimizer's state and the schedule's step counter as one unit. *)
Definition handle_state_dict (x : running) : OptState * nat := (run_state x, run_steps x).

(** Modelled from the spec, §4.7: [load_state_dict()] restores both. *)
Definition handle_load_state_dict (sd : OptState * nat) (x : running) : running :=
  Running (run_params x) sd.1 sd.2.

(** [n] steps, the step number [k] taking the input [inputs k]. *)
Fixpoint handle_run (inputs : nat → Input) (from n : nat) (x : running) : running :=
  match n with
  | 0 => x
  | S n => handle_run inputs (S from) n (handle_step (inputs from) x)
  end.

(** Modelled from the spec: a handle freshly built from the configuration,
    over a model whose parameters are [p]: the optimizer state is the
    initial one and the schedule is at step 0. *)
Definition handle_fresh (s0 : OptState) (p : Params) : running := Running p s0 0.

End resume.

(** ** A concrete environment, for examples *)

(** A few literals as [eval] reads them; any other string raises. *)
Definition demo_literals : gmap string value :=
  list_to_map [("0.01", VFloat (1 # 100)); ("0.9", VFloat (9 # 10));
               ("4", VInt 4); ("True", VBool true)].

Definition demo_eval (s : string) : result value :=
  match demo_literals !! s with
  | Some v => Ok v
  | None => Raise (OtherError "NameError")
  end.

(** One custom optimizer in the registry, two classes in [torch.optim], the
    keyword parameters [update_frequency], [clip_norm] and [enable_apex] of
    the handle class, a constant rate, and collaborators that never raise. *)
Definition demo_X : externals :=
  Externals demo_eval (λ _, VFloat (1 # 10))
    (list_to_map [("lamb", "bycha.optim.Lamb")])
    (list_to_map [("SGD", "torch.optim.SGD"); ("Adam", "torch.optim.Adam")])
    ["update_frequency"; "clip_norm"; "enable_apex"]
    (λ _, None).

Definition demo_single : environment := Environment 1 false.
Definition demo_cluster : environment := Environment 2 true.

Definition demo_model : model :=
  Model [("layer.weight", 0); ("layer.bias", 1)] false.

Definition demo_lr : value := VDict [("class", VStr "constant"); ("rate", VStr "0.1")].

(** [{class: SGD, lr: {...}, update_frequency: "4", momentum: "0.9",
     nesterov: "yes"}] *)
Definition demo_cfg : dict :=
  list_to_map [("class", VStr "SGD"); ("lr", demo_lr); ("update_frequency", VStr "4");
               ("momentum", VStr "0.9"); ("nesterov", VStr "yes")].

(** [{class: SGD, lr: {...}, no_decay: ['bias'], weight_decay: "0.01"}] *)
Definition demo_cfg_no_decay : dict :=
  list_to_map [("class", VStr "SGD"); ("lr", demo_lr);
               ("no_decay", VList [VStr "bias"]); ("weight_decay", VStr "0.01")].

(** [{class: SGD, lr: {...}, weight_decay: "0.01"}] *)
Definition demo_cfg_weight_decay : dict :=
  list_to_map [("class", VStr "SGD"); ("lr", demo_lr); ("weight_decay", VStr "0.01")].

(** [{class: SGD, lr: {...}, no_decay: ['bias']}] *)
Definition demo_cfg_no_weight_decay : dict :=
  list_to_map [("class", VStr "SGD"); ("lr", demo_lr); ("no_decay", VList [VStr "bias"])].

(** [{class: SGD, momentum: "0.9"}] *)
Definition demo_cfg_no_lr : dict :=
  list_to_map [("class", VStr "SGD"); ("momentum", VStr "0.9")].

(** [{class: frobnicator, lr: {...}}] *)
Definition demo_cfg_unknown : dict :=
  list_to_map [("class", VStr "frobnicator"); ("lr", demo_lr)].

(** The caller's mapping is the only object of the store; nothing has been
    called yet. *)
Definition demo_state (cfg : dict) : state := State [cfg] [].

(** ** The optimizer under the wrappers *)

(** The optimizer the class constructed, under the distributed and the
    apex wrappers. *)
Fixpoint raw_optimizer (o : optimizer) : optimizer :=
  match o with
  | TorchOptimizer _ _ _ _ => o
  | DistributedOptimizer o _ _ => raw_optimizer o
  | AmpOptimizer o _ _ => raw_optimizer o
  end.

#[global] Instance exn_eq_dec : EqDecision exn.
Proof. solve_decision. Defined.

#[global] Instance result_eq_dec {A} `{EqDecision A} : EqDecision (result A).
Proof. solve_decision. Defined.

(** ** The import of the sibling modules

    The loop that closes src/bycha/optim/__init__.py: every entry of the
    package directory that is public and is a Python file or a directory
    is imported as a module of [bycha.optim]. *)

(** [s.startswith(p)] *)
Definition str_startswith (s p : string) : bool := String.prefix p s.

(** [s.endswith(suf)]: some tail of [s] is [suf]. *)
Fixpoint str_endswith (s suf : string) : bool :=
  String.eqb s suf
  || match s with
     | EmptyString => false
     | String _ r => str_endswith r suf
     end.

(** [s.find(sub)]: the lowest index at which [sub] occurs in [s], and -1
    when it occurs nowhere; [find_from i] counts from [i]. *)
Fixpoint find_from (i : Z) (s sub : string) : Z :=
  if String.prefix sub s then i
  else match s with
       | EmptyString => (-1)%Z
       | String _ r => find_from (i + 1) r sub
       end.

Definition str_find (s sub : string) : Z := find_from 0 s sub.

Fixpoint str_take (n : nat) (s : string) : string :=
  match n, s with
  | S n, String a r => String a (str_take n r)
  | _, _ => EmptyString
  end.

(** [s[:i]]: a negative [i] counts from the end, and the bound is clipped
    to the string. *)
Definition slice_to (s : string) (i : Z) : string :=
  let n := Z.of_nat (String.length s) in
  str_take (Z.to_nat (if (i <? 0)%Z then Z.max 0 (n + i) else Z.min i n)) s.

(** [file[:file.find('.py')] if file.endswith('.py') else file] *)
Definition module_name (file : string) : string :=
  if str_endswith file ".py" then slice_to file (str_find file ".py") else file.

(** The condition of the loop, for a directory entry [file]; [isdir] is
    [os.path.isdir(path)]. *)
Definition is_module (file : string) (isdir : bool) : bool :=
  negb (str_startswith file "_") && negb (str_startswith file ".")
  && (str_endswith file ".py" || isdir).

(** The loop over [os.listdir(modules_dir)]: the result and the modules
    imported, in order. [import_fails] tells which imports raise; an
    exception ends the loop. *)
Fixpoint import_modules (import_fails : string → option exn)
    (entries : list (string * bool)) : result unit * list string :=
  match entries with
  | [] => (Ok (), [])
  | (file, isdir) :: rest =>
      if is_module file isdir then
        let name := ("bycha.optim." ++ module_name file)%string in
        match import_fails name with
        | Some e => (Raise e, [])
        | None =>
            let '(r, imported) := import_modules import_fails rest in
            (r, name :: imported)
        end
      else import_modules import_fails rest
  end.

(** ** [HuggingfaceTokenizer]

    The methods [encode] and [token2index] of
    src/bycha/tokenizers/huggingface_tokenizer.py. The tokenizer of the
    transformers library they delegate to is a parameter. *)

(** [len(v)] *)
Definition py_len (v : value) : result nat :=
  match v with
  | VStr s => Ok (String.length s)
  | VList l => Ok (length l)
  | VDict d => Ok (length d)
  | _ => Raise (TypeError "object has no len()")
  end.

(** [v[0]]: the first character of a string, the first element of a list;
    a mapping is looked up at the key 0, which our mappings, keyed by
    strings, do not have. *)
Definition py_first (v : value) : result value :=
  match v with
  | VStr (String a _) => Ok (VStr (String a EmptyString))
  | VList (x :: _) => Ok x
  | VStr EmptyString => Raise (OtherError "IndexError")
  | VList [] => Raise (OtherError "IndexError")
  | VDict _ => Raise (KeyError "0")
  | _ => Raise (TypeError "object is not subscriptable")
  end.

(** [l[start:stop]] with step 1: negative bounds count from the end, and
    bounds are clipped to the list. *)
Definition py_slice {A} (l : list A) (start stop : Z) : list A :=
  let n := Z.of_nat (length l) in
  let norm (i : Z) := if (i <? 0)%Z then Z.max 0 (n + i) else Z.min i n in
  take (Z.to_nat (norm stop) - Z.to_nat (norm start)) (drop (Z.to_nat (norm start)) l).

Section tokenizer.
(** [self._tokenizer.encode(input, *args, **kwargs)] *)
Context (tok_encode : value → list value → result (list Z)).

(** [if len(input) == 1: input = input[0]]
    [return self._tokenizer.encode(input, *args, **kwargs)] *)
Definition encode (input : value) (args : list value) : result (list Z) :=
  match py_len input with
  | Raise e => Raise e
  | Ok n =>
      match (if (n =? 1)%nat then py_first input else Ok input) with
      | Raise e => Raise e
      | Ok input => tok_encode input args
      end
  end.

(** [token2index] passes its arguments on to [encode] and returns the
    result sliced by [[1:-1]]. *)
Definition token2index (args : list value) : result (list Z) :=
  match args with
  | [] => Raise (TypeError "encode() missing 1 required positional argument: 'input'")
  | input :: rest =>
      match encode input rest with
      | Raise e => Raise e
      | Ok ids => Ok (py_slice ids 1 (-1))
      end
  end.

End tokenizer.

(** ** [eval] in the frame of [build_optimizer]

    [eval(v)] is called without namespaces, inside the first loop: the
    expression is evaluated with the local variables of [build_optimizer]
    in sight, and it can call the methods of the objects they are bound
    to. [py_eval] above is the evaluation of the expressions that neither
    read these variables nor change anything, literals among them. Here
    the evaluation is an oracle that is given the frame and answers with
    its result, raised exceptions included, and with what it did to the
    two dictionaries of the frame; [build_optimizer_frame] is
    [build_optimizer] with this evaluation, and coincides with it for the
    oracle made from [py_eval]. What an expression can do to the model, to
    the globals of the module or to the world outside is not covered. *)

(** The local variables an expression can read: [model], [enable_apex],
    [name], the contents of [configs] and of [kwargs], and [k]; [v] is the
    string being evaluated. *)
Record frame := Frame {
  f_model : model;
  f_enable_apex : bool;
  f_name : value;
  f_configs : dict;
  f_kwargs : dict;
  f_k : string
}.

(** What an evaluation did to [configs], the dictionary the loop is
    iterating over: nothing, [configs.update(upd)], or the removal of the
    keys [ks] (each by [configs.pop(key, None)]; [configs.clear()] removes
    them all). Effects that both remove and add keys are not covered. *)
Inductive configs_effect :=
| Unchanged
| Assign (upd : dict)
| Remove (ks : list string).

Definition apply_effect (eff : configs_effect) (c : dict) : dict :=
  match eff with
  | Unchanged => c
  | Assign upd => upd ∪ c
  | Remove ks => foldr delete c ks
  end.

(** The outcome of one [eval(v)]: its result, the contents of [kwargs]
    after it, and its effect on [configs]. *)
Record evaluation := Evaluation {
  ev_result : result value;
  ev_kwargs : dict;
  ev_configs : configs_effect
}.

Definition frame_eval := frame → string → evaluation.

(** [eval(v)] in a frame: the builtin refuses what is not a string. *)
Definition eval_in (E : frame_eval) (fr : frame) (v : value) : evaluation :=
  match v with
  | VStr s => E fr s
  | _ => Evaluation
           (Raise (TypeError "eval() arg 1 must be a string, bytes or code object"))
           (f_kwargs fr) Unchanged
  end.

(** The loop [for k, v in configs.items(): try: v = eval(v) / except: pass
    / finally: kwargs[k] = v], over the keys [ks] still to come, [c] and
    [kw] being the contents of [configs] and [kwargs]. The view
    [configs.items()] is live: a value is read when its key comes up, and
    the step to the next item raises [RuntimeError] when the number of
    entries has changed. With that number unchanged, an [Assign] has only
    replaced values and a [Remove] has removed nothing, so the keys to
    come are the same. Returns the contents of [configs] and [kwargs] at
    the end of the loop as well. *)
Fixpoint evaluate_items (E : frame_eval) (m : model) (enable_apex : bool) (name : value)
    (ks : list string) (c kw : dict) : result unit * dict * dict :=
  match ks with
  | [] => (Ok (), c, kw)
  | k :: rest =>
      match c !! k with
      | None => evaluate_items E m enable_apex name rest c kw
      | Some v =>
          let ev := eval_in E (Frame m enable_apex name c kw k) v in
          let v' := match ev_result ev with Ok x => x | Raise _ => v end in
          let kw' := <[k := v']> (ev_kwargs ev) in
          let c' := apply_effect (ev_configs ev) c in
          if decide (size c' = size c)
          then evaluate_items E m enable_apex name rest c' kw'
          else (Raise (RuntimeError "dictionary changed size during iteration"), c', kw')
      end
  end.

(** The first statements of [build_optimizer], up to [configs = kwargs],
    with [eval] in the frame. *)
Definition resolve_configs_frame (E : frame_eval) (m : model) (enable_apex : bool)
    (configs : loc) : M (value * loc) :=
  configs ← deepcopy configs;
  name ← dict_pop configs "class";
  kwargs ← alloc ∅;
  items ← load configs;
  let '(r, c', kw') :=
    evaluate_items E m enable_apex name (map_to_list items).*1 items ∅ in
  store configs c';;
  store kwargs kw';;
  lift r;;
  mret (name, kwargs).

Definition build_optimizer_frame (E : frame_eval) (X : externals) (env : environment)
    (m : model) (configs : loc) (enable_apex : bool) : M (model * handle) :=
  '(name, configs) ← resolve_configs_frame E m enable_apex configs;
  assemble X env m enable_apex name configs.

(** The oracle of the expressions that do not look at the frame and change
    nothing, evaluated by [py]. *)
Definition pure_frame_eval (py : string → result value) : frame_eval :=
  λ fr s, Evaluation (py s) (f_kwargs fr) Unchanged.






(** * Verification *)

(** ** Running computations *)

Lemma state_eta σ : State (heap σ) (trace σ) = σ.
Proof. by destruct σ. Qed.

Lemma bind_ok {A B} (m : M A) (f : A → M B) σ x σ' :
  m σ = (Ok x, σ') → (m ≫= f) σ = f x σ'.
Proof. unfold mbind, M_bind. by intros ->. Qed.

Lemma bind_raise {A B} (m : M A) (f : A → M B) σ e σ' :
  m σ = (Raise e, σ') → (m ≫= f) σ = (Raise e, σ').
Proof. unfold mbind, M_bind. by intros ->. Qed.

Lemma for_each_dict_set (f : value → value) xs : ∀ σ kw acc,
  heap σ !! kw = Some acc →
  for_each xs (λ '(k, v), dict_set kw k (f v)) σ
  = (Ok (), State (<[kw := set_all f acc xs]> (heap σ)) (trace σ)).
Proof.
  induction xs as [|[k v] xs IH]; intros σ kw acc Hkw; simpl.
  - by rewrite list_insert_id, state_eta.
  - erewrite bind_ok; last first.
    { unfold dict_set, load, store. erewrite bind_ok; last done.
      simpl. by rewrite Hkw. }
    erewrite IH; last first.
    { simpl. apply list_lookup_insert_eq. by eapply lookup_lt_Some. }
    simpl. by rewrite list_insert_insert_eq.
Qed.

Lemma set_all_lookup (f : value → value) xs : ∀ acc k,
  NoDup xs.*1 →
  set_all f acc xs !! k
  = match (list_to_map xs : dict) !! k with
    | Some v => Some (f v)
    | None => acc !! k
    end.
Proof.
  induction xs as [|[k' v'] xs IH]; intros acc k Hnd; simpl.
  - by rewrite lookup_empty.
  - apply NoDup_cons in Hnd as [Hk' Hnd].
    unfold set_all in *. simpl. rewrite IH by done.
    destruct (decide (k' = k)) as [->|Hne].
    + rewrite lookup_insert_eq.
      rewrite (not_elem_of_list_to_map_1 _ k) by done.
      by rewrite lookup_insert_eq.
    + rewrite !(lookup_insert_ne _ k' k) by done. done.
Qed.

Lemma set_all_fmap (f : value → value) (d : dict) :
  set_all f ∅ (map_to_list d) = f <$> d.
Proof.
  apply map_eq. intros k.
  rewrite set_all_lookup by apply NoDup_fst_map_to_list.
  rewrite list_to_map_to_list, lookup_fmap, lookup_empty.
  by destruct (d !! k).
Qed.

Section run.
Context (X : externals) (env : environment).
Implicit Types (σ : state) (d kw okw : dict) (l c : loc).

(** [resolve_configs] works on two new objects, a copy of the caller's
    mapping without its class and the evaluated dictionary; it fails only
    when the class is missing. *)
Lemma resolve_configs_run c σ d :
  heap σ !! c = Some d →
  resolve_configs X c σ
  = match d !! "class" with
    | Some name =>
        (Ok (name, S (length (heap σ))),
         State (heap σ ++ [delete "class" d; try_eval X <$> delete "class" d]) (trace σ))
    | None => (Raise (KeyError "class"), State (heap σ ++ [d]) (trace σ))
    end.
Proof.
  intros Hc.
  assert (Hlt : c < length (heap σ)) by by eapply lookup_lt_Some.
  unfold resolve_configs, deepcopy, dict_pop.
  unfold mbind, M_bind, load, alloc. simpl.
  rewrite Hc. simpl.
  rewrite lookup_app_r, Nat.sub_diag by lia. simpl.
  destruct (d !! "class") as [name|] eqn:Hname; last done.
  unfold store, mret, M_ret. simpl.
  rewrite insert_app_r_alt, Nat.sub_diag by lia. simpl.
  rewrite !length_app. simpl.
  rewrite lookup_app_l by (rewrite length_app; simpl; lia).
  rewrite lookup_app_r, Nat.sub_diag by lia. simpl.
  erewrite (for_each_dict_set (try_eval X)); last first.
  { simpl. rewrite lookup_app_r by (rewrite length_app; simpl; lia).
    rewrite length_app. simpl. by replace (_ - _) with 0 by lia. }
  simpl. rewrite set_all_fmap.
  rewrite insert_app_r_alt by (rewrite length_app; simpl; lia).
  rewrite length_app. simpl. replace (_ - _) with 0 by lia. simpl.
  rewrite <- app_assoc. simpl.
  by replace (length (heap σ) + 1) with (S (length (heap σ))) by lia.
Qed.

Lemma dict_contains_run l k σ kw :
  heap σ !! l = Some kw →
  dict_contains l k σ = (Ok (bool_decide (is_Some (kw !! k))), σ).
Proof. intros Hl. unfold dict_contains, mbind, M_bind, load. by rewrite Hl. Qed.

Lemma dict_pop_run l k σ kw :
  heap σ !! l = Some kw →
  dict_pop l k σ
  = match kw !! k with
    | Some v => (Ok v, State (<[l := delete k kw]> (heap σ)) (trace σ))
    | None => (Raise (KeyError k), σ)
    end.
Proof.
  intros Hl. unfold dict_pop, mbind, M_bind, load. rewrite Hl. simpl.
  by destruct (kw !! k).
Qed.

Lemma pop_handle_args_run args : ∀ σ l kw okw,
  heap σ !! l = Some kw →
  pop_handle_args l args okw σ
  = (Ok (split_args args kw okw).2,
     State (<[l := (split_args args kw okw).1]> (heap σ)) (trace σ)).
Proof.
  induction args as [|key args IH]; intros σ l kw okw Hl; simpl.
  - unfold mret, M_ret. by rewrite list_insert_id, state_eta.
  - assert (Hlt : l < length (heap σ)) by by eapply lookup_lt_Some.
    erewrite bind_ok; last by apply dict_contains_run.
    unfold split_args. simpl.
    destruct (kw !! key) as [v|] eqn:Hkey; simpl.
    + erewrite bind_ok; last by (erewrite dict_pop_run by done; rewrite Hkey).
      erewrite IH; last by (simpl; apply list_lookup_insert_eq).
      simpl. by rewrite list_insert_insert_eq.
    + by erewrite IH.
Qed.

Lemma split_args_lookup_1 args : ∀ kw okw k,
  (split_args args kw okw).1 !! k = if decide (k ∈ args) then None else kw !! k.
Proof.
  induction args as [|key args IH]; intros kw okw k; unfold split_args in *.
  - by case_decide; [set_solver|].
  - cbn [foldl]. destruct (decide (k = key)) as [->|Hne].
    + destruct (kw !! key) as [v|] eqn:Hkey; rewrite IH;
        rewrite ?lookup_delete_eq, ?Hkey;
        repeat case_decide; try done; set_solver.
    + destruct (kw !! key) as [v|] eqn:Hkey; rewrite IH;
        rewrite ?lookup_delete_ne by done;
        repeat case_decide; try done; set_solver.
Qed.

Lemma split_args_lookup_2 args : ∀ kw okw k,
  (split_args args kw okw).2 !! k
  = if decide (k ∈ args) then
      match kw !! k with Some v => Some v | None => okw !! k end
    else okw !! k.
Proof.
  induction args as [|key args IH]; intros kw okw k; unfold split_args in *.
  - by case_decide; [set_solver|].
  - cbn [foldl]. destruct (kw !! key) as [v|] eqn:Hkey; rewrite IH.
    + destruct (decide (k = key)) as [->|Hne].
      * rewrite lookup_delete_eq, lookup_insert_eq, Hkey.
        repeat case_decide; try done; set_solver.
      * rewrite lookup_delete_ne, lookup_insert_ne by done.
        repeat case_decide; try done; set_solver.
    + destruct (decide (k = key)) as [->|Hne].
      * rewrite Hkey. repeat case_decide; try done; set_solver.
      * repeat case_decide; try done; set_solver.
Qed.

End run.

Section local.
Context (X : externals) (env : environment).
Implicit Types (σ : state) (kw : dict) (t : list call) (l : loc).

Lemma local_mono {A} l kw t (m : M A) (Q Q' : result A → dict → list call → Prop) :
  local l kw t m Q → (∀ r kw' t', Q r kw' t' → Q' r kw' t') → local l kw t m Q'.
Proof. intros Hm HQ σ Hl Ht. destruct (Hm σ Hl Ht) as (kw' & ? & ?). eauto. Qed.

Lemma local_ret {A} l kw t (x : A) (Q : result A → dict → list call → Prop) :
  Q (Ok x) kw t → local l kw t (mret x) Q.
Proof.
  intros HQ σ Hl Ht. exists kw. unfold mret, M_ret. simpl.
  by rewrite list_insert_id, Ht.
Qed.

Lemma local_lift {A} l kw t (r : result A) (Q : result A → dict → list call → Prop) :
  Q r kw t → local l kw t (lift r) Q.
Proof.
  intros HQ σ Hl Ht. exists kw. unfold lift. simpl.
  by rewrite list_insert_id, Ht.
Qed.

Lemma local_bind {A B} l kw t (m : M A) (f : A → M B)
    (Q : result B → dict → list call → Prop) :
  local l kw t m (λ r kw' t',
    match r with
    | Ok x => local l kw' t' (f x) Q
    | Raise e => Q (Raise e) kw' t'
    end) →
  local l kw t (m ≫= f) Q.
Proof.
  intros Hm σ Hl Ht. destruct (Hm σ Hl Ht) as (kw' & Hh & Hr).
  assert (Hlt : l < length (heap σ)) by by eapply lookup_lt_Some.
  unfold mbind, M_bind. destruct (m σ) as [[x|e] σ1]; simpl in *.
  - destruct (Hr σ1) as (kw'' & Hh' & HQ); [by rewrite Hh, list_lookup_insert_eq|done|].
    exists kw''. split; [|done]. by rewrite Hh', Hh, list_insert_insert_eq.
  - eauto.
Qed.

Lemma local_load l kw t (Q : result dict → dict → list call → Prop) :
  Q (Ok kw) kw t → local l kw t (load l) Q.
Proof.
  intros HQ σ Hl Ht. exists kw. unfold load. simpl.
  by rewrite Hl, list_insert_id, Ht.
Qed.

Lemma local_invoke l kw t c (Q : result () → dict → list call → Prop) :
  (∀ e, fails X c = Some e → Q (Raise e) kw t) →
  (fails X c = None → Q (Ok ()) kw (t ++ [c])) →
  local l kw t (invoke X c) Q.
Proof.
  intros Hfail Hok σ Hl Ht. exists kw. unfold invoke.
  destruct (fails X c) as [e|]; simpl; rewrite list_insert_id, Ht by done; eauto.
Qed.

Lemma local_dict_contains l kw t k (Q : result bool → dict → list call → Prop) :
  Q (Ok (bool_decide (is_Some (kw !! k)))) kw t → local l kw t (dict_contains l k) Q.
Proof.
  intros HQ σ Hl Ht. exists kw. erewrite dict_contains_run by done. simpl.
  by rewrite list_insert_id, Ht.
Qed.

Lemma local_dict_pop l kw t k (Q : result value → dict → list call → Prop) :
  match kw !! k with
  | Some v => Q (Ok v) (delete k kw) t
  | None => Q (Raise (KeyError k)) kw t
  end →
  local l kw t (dict_pop l k) Q.
Proof.
  intros HQ σ Hl Ht. erewrite dict_pop_run by done.
  destruct (kw !! k) as [v|]; simpl.
  - exists (delete k kw). by rewrite Ht.
  - exists kw. by rewrite list_insert_id, Ht.
Qed.

Lemma local_pop_handle_args l kw t args okw (Q : result dict → dict → list call → Prop) :
  Q (Ok (split_args args kw okw).2) (split_args args kw okw).1 t →
  local l kw t (pop_handle_args l args okw) Q.
Proof.
  intros HQ σ Hl Ht. erewrite pop_handle_args_run by done. simpl.
  eexists. split; [done|]. by rewrite Ht.
Qed.

Lemma local_group_parameters l kw t m (Q : result grouped → dict → list call → Prop) :
  Q (partition_parameters m kw).1 (partition_parameters m kw).2 t →
  local l kw t (group_parameters m l) Q.
Proof.
  intros HQ. unfold group_parameters, partition_parameters in *.
  apply local_bind, local_dict_contains.
  destruct (kw !! "no_decay") as [nd|] eqn:Hnd; simpl.
  - apply local_bind, local_dict_pop. rewrite Hnd.
    apply local_bind, local_dict_pop.
    destruct (delete "no_decay" kw !! "weight_decay") as [wd|]; [|done].
    destruct (comprehension _ (named_parameters m)) as [[decayed|e] gen]; simpl in *.
    + apply local_bind, local_lift.
      destruct (comprehension _ gen) as [[undecayed|e] gen']; simpl in *.
      * apply local_bind, local_lift. by apply local_ret.
      * by apply local_bind, local_lift.
    + by apply local_bind, local_lift.
  - by apply local_ret.
Qed.

End local.

(** ** Stepping through [assemble] *)

Ltac local_step :=
  lazymatch goal with
  | |- local _ _ _ (mbind _ _) _ => apply local_bind
  | |- local _ _ _ (mret _) _ => apply local_ret
  | |- local _ _ _ (lift _) _ => apply local_lift
  | |- local _ _ _ (load _) _ => apply local_load
  | |- local _ _ _ (invoke _ _) _ => apply local_invoke
  | |- local _ _ _ (dict_pop _ _) _ => apply local_dict_pop
  | |- local _ _ _ (pop_handle_args _ _ _) _ => apply local_pop_handle_args
  | |- local _ _ _ (group_parameters _ _) _ => apply local_group_parameters
  end.

Section assemble.
Context (X : externals) (env : environment).
Implicit Types (σ : state) (kw : dict) (t : list call) (l : loc).

(** [distribute] either makes all the calls of [distribute_calls] and
    returns the wrapped optimizer, or raises after some of them. *)
Lemma local_distribute l kw t m enable_apex okw o
    (Q : result optimizer → dict → list call → Prop) :
  (∀ e cs, cs `prefix_of` distribute_calls env m enable_apex okw o →
           Q (Raise e) kw (t ++ cs)) →
  (Forall (λ c, fails X c = None) (distribute_calls env m enable_apex okw o) →
   Q (Ok (distributed env m enable_apex okw o)) kw
     (t ++ distribute_calls env m enable_apex okw o)) →
  local l kw t (distribute X env m enable_apex okw o) Q.
Proof.
  unfold distribute, distribute_calls, distributed. intros Hfail Hok.
  case_bool_decide.
  - local_step. local_step.
    { intros e He. rewrite <- (app_nil_r t). apply Hfail, prefix_nil. }
    intros H1. local_step. local_step.
    { intros e He. apply Hfail. by eexists [_; _]. }
    intros H2. local_step. local_step.
    { intros e He. rewrite <- app_assoc. apply Hfail. by eexists [_]. }
    intros H3. local_step. rewrite <- !app_assoc. apply Hok.
    by repeat constructor.
  - local_step. rewrite <- (app_nil_r t). by apply Hok.
Qed.

Lemma local_apex l kw t m enable_apex okw o
    (Q : result (model * optimizer) → dict → list call → Prop) :
  (∀ e, Q (Raise e) kw t) →
  (Forall (λ c, fails X c = None) (apex_calls m enable_apex okw o) →
   Q (Ok (amp_model m enable_apex, amp_optimizer enable_apex okw o)) kw
     (t ++ apex_calls m enable_apex okw o)) →
  local l kw t (apex X m enable_apex okw o) Q.
Proof.
  unfold apex, apex_calls, amp_model, amp_optimizer, num_losses. intros Hfail Hok.
  destruct enable_apex.
  - local_step. local_step; [done|].
    intros H1. local_step. apply Hok. by repeat constructor.
  - local_step. rewrite <- (app_nil_r t). by apply Hok.
Qed.

(** A successful run of [assemble] found [lr], resolved the class, built
    the parameter groups, and made exactly the calls of [success], none of
    which failed. *)
Lemma assemble_ok l kw t m enable_apex name :
  local l kw t (assemble X env m enable_apex name l) (λ r kw' t',
    ∀ m' h, r = Ok (m', h) →
      ∃ lr c g,
        kw !! "lr" = Some lr ∧
        resolve_cls X name = Ok c ∧
        (partition_parameters m (split_args (handle_args X) (delete "lr" kw) ∅).1).1 = Ok g ∧
        let out := success X env m enable_apex name kw lr c g in
        m' = out_model out ∧ h = out_handle out ∧
        t' = t ++ out_calls out ∧
        Forall (λ c, fails X c = None) (out_calls out)).
Proof.
  unfold assemble.
  local_step. local_step.
  local_step. local_step; [done|intros Hf1].
  local_step. local_step.
  destruct (kw !! "lr") as [lr|] eqn:Hlr; [|done].
  local_step. local_step; [done|intros Hf2].
  local_step. local_step; [done|intros Hf3].
  local_step. local_step.
  local_step. local_step.
  destruct (resolve_cls X name) as [c|] eqn:Hc; [|done].
  local_step. local_step.
  destruct (partition_parameters m _).1 as [g|] eqn:Hg; [|done].
  local_step. local_step.
  local_step. local_step; [done|intros Hf4].
  local_step. apply local_distribute; [done|intros Hf5].
  local_step. apply local_apex; [done|intros Hf6].
  local_step. local_step; [done|intros Hf7].
  local_step. intros m' h [= <- <-].
  exists lr, c, g. repeat split; try done.
  - unfold success. simpl. by rewrite <- !app_assoc.
  - unfold success. simpl. repeat (apply Forall_cons; split; [done|]).
    apply Forall_app; split; [done|]. apply Forall_app; split; [done|].
    by repeat constructor.
Qed.

(** [build_optimizer] is [resolve_configs] followed by [assemble] on the
    evaluated dictionary. *)
Lemma build_optimizer_unfold m c enable_apex σ d :
  heap σ !! c = Some d →
  build_optimizer X env m c enable_apex σ
  = match d !! "class" with
    | Some name =>
        assemble X env m enable_apex name (S (length (heap σ)))
          (State (heap σ ++ [delete "class" d; try_eval X <$> delete "class" d])
             (trace σ))
    | None => (Raise (KeyError "class"), State (heap σ ++ [d]) (trace σ))
    end.
Proof.
  intros Hc. unfold build_optimizer, mbind at 1, M_bind at 1.
  rewrite (resolve_configs_run X c σ d Hc). by destruct (d !! "class").
Qed.

(** From [assemble] to [build_optimizer]: a property of the result and of
    the trace carries over, and the store of the caller is extended by the
    objects of the run and otherwise unchanged. *)
Lemma build_optimizer_run m c enable_apex σ d
    (Q : result (model * handle) → list call → Prop) :
  heap σ !! c = Some d →
  (d !! "class" = None → Q (Raise (KeyError "class")) (trace σ)) →
  (∀ name l, d !! "class" = Some name →
     local l (try_eval X <$> delete "class" d) (trace σ)
       (assemble X env m enable_apex name l) (λ r _ t', Q r t')) →
  Q (build_optimizer X env m c enable_apex σ).1
    (trace (build_optimizer X env m c enable_apex σ).2)
  ∧ ∃ extra, heap (build_optimizer X env m c enable_apex σ).2 = heap σ ++ extra.
Proof.
  intros Hc Hnone Hsome. rewrite (build_optimizer_unfold m c enable_apex σ d Hc).
  destruct (d !! "class") as [name|] eqn:Hname; simpl.
  - set (l := S (length (heap σ))).
    set (σ1 := State (heap σ ++ [delete "class" d; try_eval X <$> delete "class" d])
                 (trace σ)).
    assert (Hl : heap σ1 !! l = Some (try_eval X <$> delete "class" d)).
    { unfold σ1, l. simpl. rewrite lookup_app_r by lia.
      by replace (S (length (heap σ)) - length (heap σ)) with 1 by lia. }
    destruct (Hsome name l eq_refl σ1 Hl eq_refl) as (kw' & Hh & HQ).
    split; [done|]. rewrite Hh. unfold σ1, l. simpl.
    rewrite insert_app_r_alt by lia.
    replace (S (length (heap σ)) - length (heap σ)) with 1 by lia.
    by eexists.
  - split; [by apply Hnone | by eexists].
Qed.

(** A successful [build_optimizer]. *)
Lemma build_optimizer_ok m c enable_apex σ d m' h σ' :
  heap σ !! c = Some d →
  build_optimizer X env m c enable_apex σ = (Ok (m', h), σ') →
  ∃ name lr cl g,
    let kw := try_eval X <$> delete "class" d in
    d !! "class" = Some name ∧
    kw !! "lr" = Some lr ∧
    resolve_cls X name = Ok cl ∧
    (partition_parameters m (split_args (handle_args X) (delete "lr" kw) ∅).1).1 = Ok g ∧
    let out := success X env m enable_apex name kw lr cl g in
    m' = out_model out ∧ h = out_handle out ∧
    trace σ' = trace σ ++ out_calls out ∧
    Forall (λ c, fails X c = None) (out_calls out).
Proof.
  intros Hc Hrun.
  pose proof (build_optimizer_run m c enable_apex σ d
    (λ r t', ∀ m' h, r = Ok (m', h) →
       ∃ name lr cl g,
         let kw := try_eval X <$> delete "class" d in
         d !! "class" = Some name ∧
         kw !! "lr" = Some lr ∧
         resolve_cls X name = Ok cl ∧
         (partition_parameters m (split_args (handle_args X) (delete "lr" kw) ∅).1).1 = Ok g ∧
         let out := success X env m enable_apex name kw lr cl g in
         m' = out_model out ∧ h = out_handle out ∧
         t' = trace σ ++ out_calls out ∧
         Forall (λ c, fails X c = None) (out_calls out)) Hc) as Hgen.
  destruct Hgen as [HQ _].
  - done.
  - intros name l Hname. eapply local_mono; [apply assemble_ok|].
    intros r kw' t' Hok m1 h1 Hr.
    destruct (Hok m1 h1 Hr) as (lr & cl & g & ?). exists name, lr, cl, g. naive_solver.
  - rewrite Hrun in HQ. by apply HQ.
Qed.

End assemble.

(** ** The calls of a run, failed or not *)

Section calls.
Context (X : externals) (env : environment).
Implicit Types (σ : state) (kw : dict) (t : list call) (l : loc).

Lemma distribute_calls_hvd m enable_apex okw o :
  Forall (λ c, (distributed_world env > 1)%Z ∧ constructs_schedule c = false)
    (distribute_calls env m enable_apex okw o).
Proof.
  unfold distribute_calls. case_bool_decide; by repeat constructor.
Qed.

Lemma apex_calls_kind m enable_apex okw o :
  Forall (λ c, is_hvd c = false ∧ constructs_schedule c = false)
    (apex_calls m enable_apex okw o).
Proof. unfold apex_calls. destruct enable_apex; by repeat constructor. Qed.

Lemma assemble_calls l kw t m enable_apex name :
  local l kw t (assemble X env m enable_apex name l) (λ r _ t',
    ∃ cs, t' = t ++ cs ∧
      Forall (λ c,
        (is_hvd c = true → (distributed_world env > 1)%Z) ∧
        (constructs_schedule c = true → is_Some (kw !! "lr")) ∧
        (constructs_optimizer c = true →
           is_Some (kw !! "lr") ∧ (∃ cl, resolve_cls X name = Ok cl) ∧
           ∃ g, (partition_parameters m
                   (split_args (handle_args X) (delete "lr" kw) ∅).1).1 = Ok g)) cs).
Proof.
  unfold assemble.
  local_step. local_step.
  local_step. local_step; [intros; by exists []; rewrite app_nil_r|intros _].
  local_step. local_step.
  destruct (kw !! "lr") as [lr|] eqn:Hlr.
  2:{ eexists; split; [done|]. by repeat constructor. }
  local_step. local_step; [intros; eexists; split; [done|]; by repeat constructor|intros _].
  local_step. local_step.
  { intros. rewrite <- !app_assoc. eexists; split; [done|]. by repeat constructor. }
  intros _.
  local_step. local_step.
  local_step. local_step.
  destruct (resolve_cls X name) as [c|] eqn:Hc.
  2:{ rewrite <- !app_assoc. eexists; split; [done|]. by repeat constructor. }
  local_step. local_step.
  destruct (partition_parameters m _).1 as [g|] eqn:Hg.
  2:{ rewrite <- !app_assoc. eexists; split; [done|]. by repeat constructor. }
  local_step. local_step.
  local_step. local_step.
  { intros. rewrite <- !app_assoc. eexists; split; [done|]. by repeat constructor. }
  intros _.
  local_step. apply local_distribute.
  { intros e cs [k Hk]. rewrite <- !app_assoc. eexists; split; [done|].
    pose proof (distribute_calls_hvd m enable_apex
                  (split_args (handle_args X) (delete "lr" kw) ∅).2
                  (TorchOptimizer c g (rate X (Scheduler lr true))
                     (partition_parameters m (split_args (handle_args X) (delete "lr" kw) ∅).1).2)) as Hd.
    rewrite Hk in Hd. apply Forall_app in Hd as [Hd _].
    simpl. repeat (apply Forall_cons; split; [naive_solver|]).
    eapply Forall_impl; [exact Hd|]. simpl. intros c0 [? Hs]. rewrite Hs. naive_solver. }
  intros _.
  local_step. apply local_apex.
  { intros e. rewrite <- !app_assoc. eexists; split; [done|].
    simpl. repeat (apply Forall_cons; split; [naive_solver|]).
    eapply Forall_impl; [apply distribute_calls_hvd|].
    simpl. intros c0 [? Hs]. rewrite Hs. naive_solver. }
  intros _.
  assert (Hall : Forall (λ c0,
        (is_hvd c0 = true → (distributed_world env > 1)%Z) ∧
        (constructs_schedule c0 = true → is_Some (Some lr)) ∧
        (constructs_optimizer c0 = true →
           is_Some (Some lr) ∧ (∃ cl, Ok c = Ok cl :> result cls) ∧
           ∃ g0, Ok g = Ok g0 :> result grouped))
      (distribute_calls env m enable_apex
         (split_args (handle_args X) (delete "lr" kw) ∅).2
         (TorchOptimizer c g (rate X (Scheduler lr true))
            (partition_parameters m (split_args (handle_args X) (delete "lr" kw) ∅).1).2)
       ++ apex_calls m enable_apex (split_args (handle_args X) (delete "lr" kw) ∅).2
            (distributed env m enable_apex
               (split_args (handle_args X) (delete "lr" kw) ∅).2
               (TorchOptimizer c g (rate X (Scheduler lr true))
                  (partition_parameters m
                     (split_args (handle_args X) (delete "lr" kw) ∅).1).2)))).
  { apply Forall_app; split.
    - eapply Forall_impl; [apply distribute_calls_hvd|].
      simpl. intros c0 [? Hs]. rewrite Hs. naive_solver.
    - eapply Forall_impl; [apply apex_calls_kind|].
      simpl. intros c0 [Hh Hs]. rewrite Hh, Hs. naive_solver. }
  local_step. local_step.
  { intros. rewrite <- !app_assoc. eexists; split; [done|].
    simpl. repeat (apply Forall_cons; split; [naive_solver|]). done. }
  intros _. local_step.
  rewrite <- !app_assoc. eexists; split; [done|].
  simpl. repeat (apply Forall_cons; split; [naive_solver|]).
  apply Forall_app in Hall as [Hd Ha].
  apply Forall_app; split; [done|]. apply Forall_app; split; [done|].
  apply Forall_cons; split; [naive_solver|done].
Qed.

(** The calls of any run of [build_optimizer], failed or not: horovod is
    called only on more than one worker, the scheduler is created only
    when [lr] is there, and an optimizer, a wrapper or the handle is
    constructed only after [lr] was found, the class resolved and the
    parameters grouped. *)
Lemma build_optimizer_calls m c enable_apex σ d :
  heap σ !! c = Some d →
  let kw := try_eval X <$> delete "class" d in
  ∃ cs, trace (build_optimizer X env m c enable_apex σ).2 = trace σ ++ cs ∧
    Forall (λ c,
      (is_hvd c = true → (distributed_world env > 1)%Z) ∧
      (constructs_schedule c = true → is_Some (kw !! "lr")) ∧
      (constructs_optimizer c = true →
         ∃ name cl g,
           d !! "class" = Some name ∧ is_Some (kw !! "lr") ∧
           resolve_cls X name = Ok cl ∧
           (partition_parameters m
              (split_args (handle_args X) (delete "lr" kw) ∅).1).1 = Ok g)) cs.
Proof.
  intros Hc kw.
  refine (proj1 (build_optimizer_run X env m c enable_apex σ d (λ _ t', ∃ cs, t' = _ ++ cs ∧ _) Hc _ _)).
  - intros _. exists []. by rewrite app_nil_r.
  - intros name l Hname. eapply local_mono; [apply assemble_calls|].
    simpl. intros r _ t' (cs & -> & Hcs). exists cs. split; [done|].
    eapply Forall_impl; [exact Hcs|]. simpl. naive_solver.
Qed.

(** A run that finds [lr] but cannot resolve the class, the logger and the
    scheduler not failing: the error of the resolution comes out, after the
    configuration was logged and the scheduler created and built. *)
Lemma assemble_unresolved l kw t m enable_apex name lr e :
  kw !! "lr" = Some lr →
  resolve_cls X name = Raise e →
  (∀ c, constructs_optimizer c = false → fails X c = None) →
  local l kw t (assemble X env m enable_apex name l) (λ r _ t',
    r = Raise e
    ∧ t' = t ++ [logger_info name kw; create_rate_scheduler lr;
                 lr_scheduler_build (Scheduler lr false)]).
Proof.
  intros Hlr He Hf. unfold assemble.
  local_step. local_step.
  local_step. local_step; [intros e'; by rewrite Hf|intros _].
  local_step. local_step. rewrite Hlr.
  local_step. local_step; [intros e'; by rewrite Hf|intros _].
  local_step. local_step; [intros e'; by rewrite Hf|intros _].
  local_step. local_step.
  local_step. local_step. rewrite He.
  by rewrite <- !app_assoc.
Qed.
End calls.

(** ** When [assemble] returns *)

Section returns.
Context (X : externals) (env : environment).

(** With [lr] present, the class resolved, the parameters grouped and no
    failing call, [assemble] returns the outcome [success] describes. *)
Lemma assemble_returns l (kw : dict) t m enable_apex name lr cl g :
  kw !! "lr" = Some lr →
  resolve_cls X name = Ok cl →
  (partition_parameters m (split_args (handle_args X) (delete "lr" kw) ∅).1).1 = Ok g →
  let out := success X env m enable_apex name kw lr cl g in
  Forall (λ c, fails X c = None) (out_calls out) →
  local l kw t (assemble X env m enable_apex name l) (λ r _ t',
    r = Ok (out_model out, out_handle out) ∧ t' = t ++ out_calls out).
Proof.
  intros Hlr Hcl Hg out Hf. unfold out, success in *. simpl in Hf |- *.
  apply Forall_cons in Hf as [Hf1 Hf]. apply Forall_cons in Hf as [Hf2 Hf].
  apply Forall_cons in Hf as [Hf3 Hf]. apply Forall_cons in Hf as [Hf4 Hf].
  apply Forall_app in Hf as [Hf5 Hf]. apply Forall_app in Hf as [Hf6 Hf].
  apply Forall_cons in Hf as [Hf7 _].
  unfold assemble.
  local_step. local_step.
  local_step. local_step; [intros e He; congruence|intros _].
  local_step. local_step. rewrite Hlr.
  local_step. local_step; [intros e He; congruence|intros _].
  local_step. local_step; [intros e He; congruence|intros _].
  local_step. local_step.
  local_step. local_step. rewrite Hcl.
  local_step. local_step. rewrite Hg.
  local_step. local_step.
  local_step. local_step; [intros e He; congruence|intros _].
  local_step.
  unfold distribute, distribute_calls, distributed in *.
  unfold apex, apex_calls, amp_optimizer, amp_model, num_losses in *.
  case_bool_decide.
  - apply Forall_cons in Hf5 as [Hd1 Hf5]. apply Forall_cons in Hf5 as [Hd2 Hf5].
    apply Forall_cons in Hf5 as [Hd3 _].
    local_step. local_step; [intros e He; congruence|intros _].
    local_step. local_step; [intros e He; congruence|intros _].
    local_step. local_step; [intros e He; congruence|intros _].
    local_step. local_step.
    destruct enable_apex.
    + apply Forall_cons in Hf6 as [Ha _].
      local_step. local_step; [intros e He; congruence|intros _].
      local_step. local_step. local_step; [intros e He; congruence|intros _].
      local_step. split; [done|]. by rewrite <- !app_assoc.
    + local_step. local_step. local_step; [intros e He; congruence|intros _].
      local_step. split; [done|]. by rewrite <- !app_assoc.
  - local_step. local_step.
    destruct enable_apex.
    + apply Forall_cons in Hf6 as [Ha _].
      local_step. local_step; [intros e He; congruence|intros _].
      local_step. local_step. local_step; [intros e He; congruence|intros _].
      local_step. split; [done|]. by rewrite <- !app_assoc.
    + local_step. local_step. local_step; [intros e He; congruence|intros _].
      local_step. split; [done|]. by rewrite <- !app_assoc.
Qed.

End returns.

(** ** The evaluation loop with [eval] in the frame *)

Section frame.
Context (E : frame_eval) (m : model) (enable_apex : bool) (name : value).




End frame.

(** With the oracle made from a function of the string, the loop is the
    pure loop: it assigns [f v] for every item. *)
Lemma evaluate_items_pure (X : externals) m enable_apex name (c : dict) xs : ∀ kw,
  (∀ k v, (k, v) ∈ xs → c !! k = Some v) →
  evaluate_items (pure_frame_eval (py_eval X)) m enable_apex name xs.*1 c kw
  = (Ok (), c, set_all (try_eval X) kw xs).
Proof.
  induction xs as [|[k v] xs IH]; intros kw Hxs; simpl; [done|].
  rewrite (Hxs k v) by by left.
  assert (Hev : eval_in (pure_frame_eval (py_eval X)) (Frame m enable_apex name c kw k) v
                = Evaluation (eval X v) kw Unchanged).
  { by destruct v. }
  rewrite Hev. simpl. rewrite decide_True by done.
  unfold set_all in *. simpl. rewrite IH; [done|].
  intros k' v' Hin. apply Hxs. by right.
Qed.

Section frame_run.
Context (E : frame_eval) (X : externals) (env : environment).

(** [resolve_configs_frame] works on two new objects, like
    [resolve_configs]; it raises when the class is missing and when the
    loop does. *)
Lemma resolve_configs_frame_run m enable_apex c σ (d : dict) :
  heap σ !! c = Some d →
  resolve_configs_frame E m enable_apex c σ
  = match d !! "class" with
    | Some name =>
        let res := evaluate_items E m enable_apex name
                     (map_to_list (delete "class" d)).*1 (delete "class" d) ∅ in
        (match res.1.1 with
         | Ok _ => Ok (name, S (length (heap σ)))
         | Raise e => Raise e
         end,
         State (heap σ ++ [res.1.2; res.2]) (trace σ))
    | None => (Raise (KeyError "class"), State (heap σ ++ [d]) (trace σ))
    end.
Proof.
  intros Hc.
  assert (Hlt : c < length (heap σ)) by by eapply lookup_lt_Some.
  unfold resolve_configs_frame, deepcopy, dict_pop.
  unfold mbind, M_bind, load, alloc. simpl.
  rewrite Hc. simpl.
  rewrite lookup_app_r, Nat.sub_diag by lia. simpl.
  destruct (d !! "class") as [name|] eqn:Hname; last done.
  unfold store, mret, M_ret. simpl.
  rewrite insert_app_r_alt, Nat.sub_diag by lia. simpl.
  rewrite !length_app. simpl.
  rewrite lookup_app_l by (rewrite length_app; simpl; lia).
  rewrite lookup_app_r, Nat.sub_diag by lia. simpl.
  destruct (evaluate_items E m enable_apex name _ _ _) as [[r c'] kw'] eqn:Hloop.
  simpl. unfold lift.
  assert (Hheap : <[length (heap σ) + 1 := kw']>
                    (<[length (heap σ) := c']> ((heap σ ++ [delete "class" d]) ++ [∅]))
                  = heap σ ++ [c'; kw']).
  { rewrite <- app_assoc. simpl.
    rewrite (insert_app_r_alt (heap σ)), Nat.sub_diag by lia. simpl.
    rewrite insert_app_r_alt by lia.
    by replace (length (heap σ) + 1 - length (heap σ)) with 1 by lia. }
  destruct r as [[]|e]; simpl; f_equal;
    try (f_equal; f_equal; lia); (f_equal; exact Hheap).
Qed.



End frame_run.

(** [build_optimizer] is [build_optimizer_frame] for the expressions that
    do not look at the frame and change nothing. *)
Lemma build_optimizer_frame_pure (X : externals) (env : environment) m c enable_apex σ
    (d : dict) :
  heap σ !! c = Some d →
  build_optimizer_frame (pure_frame_eval (py_eval X)) X env m c enable_apex σ
  = build_optimizer X env m c enable_apex σ.
Proof.
  intros Hc. unfold build_optimizer_frame, build_optimizer, mbind, M_bind.
  rewrite (resolve_configs_frame_run _ m enable_apex c σ d Hc).
  rewrite (resolve_configs_run X c σ d Hc).
  destruct (d !! "class") as [name|]; [|done].
  rewrite (evaluate_items_pure X m enable_apex name (delete "class" d)
             (map_to_list (delete "class" d)) ∅).
  - simpl. by rewrite set_all_fmap.
  - intros k v Hin. by apply elem_of_map_to_list.
Qed.

(** ** Errors of the collaborators are not swallowed *)

Section propagates.
Context (X : externals) (env : environment).


End propagates.




Section propagates_assemble.
Context (X : externals) (env : environment).


End propagates_assemble.

(** * The claims *)

(** ** C1: the partition into weight-decay groups *)

(** A comprehension leaves its generator exhausted. *)
Lemma comprehension_exhausts keep gen ps gen' :
  comprehension keep gen = (Ok ps, gen') → gen' = [].
Proof.
  revert ps gen'. induction gen as [|[n p] gen IH]; intros ps gen'; simpl.
  - by intros [= _ <-].
  - destruct (keep n) as [b|e]; [|done].
    destruct (comprehension keep gen) as [[ps'|e] g] eqn:Hc; [|done].
    intros [= _ <-]. by eapply IH.
Qed.

(** Whatever the model and the exclusion substrings, the second group of
    [build_optimizer], the one with weight decay 0.0, is empty: the
    generator [named_parameters] has been run to its end by the first
    comprehension. *)
Lemma partition_parameters_undecayed_empty m kw gs :
  (partition_parameters m kw).1 = Ok (ParamGroups gs) →
  ∃ decayed w, gs = [Group decayed w; Group [] (VFloat 0)].
Proof.
  unfold partition_parameters.
  destruct (kw !! "no_decay") as [nd|]; [|done].
  destruct (delete "no_decay" kw !! "weight_decay") as [w|]; [|done].
  destruct (comprehension _ (named_parameters m)) as [[decayed|e] gen] eqn:H1; [|done].
  apply comprehension_exhausts in H1 as ->. simpl.
  intros [= <-]. eauto.
Qed.

(** Without [no_decay] the optimizer gets the generator of all parameters,
    that is one group, the full parameter set. *)
Lemma partition_parameters_without_no_decay m kw :
  kw !! "no_decay" = None →
  (partition_parameters m kw).1 = Ok (Parameters (parameters m))
  ∧ groups_of (Parameters (parameters m)) = [(m_named m).*2].
Proof. intros Hnd. unfold partition_parameters. by rewrite Hnd. Qed.

(** C1, at the input [demo_cfg_no_decay]: with [no_decay = ['bias']] and
    [weight_decay = "0.01"] over the parameters [layer.weight] (tensor 0)
    and [layer.bias] (tensor 1), the groups handed to the optimizer class
    are [[0]] with decay 0.01 and the empty list with decay 0.0:
    [layer.bias], whose name contains an exclusion substring, is in no
    group. *)
Theorem C1_no_decay_parameter_dropped :
  ∃ m h σ' c r kw,
    build_optimizer demo_X demo_single demo_model 0 false (demo_state demo_cfg_no_decay)
    = (Ok (m, h), σ')
    ∧ h_optimizer h
      = TorchOptimizer c
          (ParamGroups [Group [0] (VFloat (1 # 100)); Group [] (VFloat 0)]) r kw.
Proof. do 6 eexists. split; vm_compute; reflexivity. Qed.

(** ** C2: fp16 compression and apex requested together *)

(** The claim fails at [demo_cfg] on two workers with fp16 and apex both
    on: [build_optimizer] returns a handle. *)
Lemma C2_counterexample :
  fp16 demo_cluster = true ∧ (distributed_world demo_cluster > 1)%Z ∧
  ¬ raises (build_optimizer demo_X demo_cluster demo_model 0 true (demo_state demo_cfg)).1.
Proof.
  split; [done|]. split; [done|]. intros [e He]. vm_compute in He. discriminate.
Qed.

(** C2, amended: with apex on, a request for fp16 is ignored. Whatever the
    inputs, the run is the one made with fp16 off, result and final state,
    whether it returns or raises: no error comes from the request. So the
    run returns when [lr] is present, the class resolves, the parameters
    can be grouped and no call raises; and a run that returns on more than
    one worker has constructed the distributed wrapper without compression
    and put the apex wrapper around it. *)
Theorem C2_fp16_ignored_under_apex (X : externals) (w : Z) m c σ :
  build_optimizer X (Environment w true) m c true σ
  = build_optimizer X (Environment w false) m c true σ
  ∧ (∀ d name lr cl g,
       heap σ !! c = Some d →
       d !! "class" = Some name →
       let kw := try_eval X <$> delete "class" d in
       kw !! "lr" = Some lr →
       resolve_cls X name = Ok cl →
       (partition_parameters m (split_args (handle_args X) (delete "lr" kw) ∅).1).1 = Ok g →
       let out := success X (Environment w true) m true name kw lr cl g in
       Forall (λ c, fails X c = None) (out_calls out) →
       (build_optimizer X (Environment w true) m c true σ).1
       = Ok (out_model out, out_handle out))
  ∧ (∀ d m' h σ',
       heap σ !! c = Some d →
       (w > 1)%Z →
       build_optimizer X (Environment w true) m c true σ = (Ok (m', h), σ') →
       ∃ raw okw,
         let wrapper := HvdKwargs (okw !! "update_frequency") None in
         h_optimizer h
         = AmpOptimizer (DistributedOptimizer raw (named_parameters m) wrapper) "O1"
             (num_losses okw)
         ∧ hvd_DistributedOptimizer raw (named_parameters m) wrapper ∈ trace σ').
Proof.
  split; [reflexivity|]. split.
  - intros d name lr cl g Hc Hname kw Hlr Hcl Hg out Hf.
    refine (proj1 (proj1 (build_optimizer_run X (Environment w true) m c true σ d
                     (λ r t', r = Ok (out_model out, out_handle out)
                              ∧ t' = trace σ ++ out_calls out) Hc _ _)));
      [congruence|].
    intros name' l Hname'. assert (name' = name) as -> by congruence.
    eapply local_mono; [by apply assemble_returns|]. done.
  - intros d m' h σ' Hc Hw Hrun.
    destruct (build_optimizer_ok _ _ _ _ _ _ _ _ _ _ Hc Hrun)
      as (name & lr & cl & g & _ & _ & _ & _ & _ & -> & Ht & _).
    unfold success in *. simpl in *.
    unfold distribute_calls, distributed, amp_optimizer, hvd_kwargs_of in *. simpl in *.
    rewrite bool_decide_eq_true_2 in * by done.
    eexists _, _. split; [done|].
    rewrite Ht. set_solver.
Qed.

Lemma C2_fp16_ignored_under_apex_witness :
  ∃ m' h,
    (build_optimizer demo_X (Environment 2 true) demo_model 0 true (demo_state demo_cfg)).1
    = Ok (m', h).
Proof.
  eexists _, _.
  apply (proj1 (proj2 (C2_fp16_ignored_under_apex demo_X 2 demo_model 0
                         (demo_state demo_cfg)))
           demo_cfg (VStr "SGD") demo_lr "torch.optim.SGD"
           (Parameters (parameters demo_model)));
    try reflexivity.
  apply Forall_forall. intros ? _. reflexivity.
Defined.

(** ** C3: a class name that resolves nowhere *)

(** A run that fails never returns a handle. *)
Lemma not_ok_raises {A} (r : result A) : (∀ x, r ≠ Ok x) → raises r.
Proof. destruct r as [x|e]; [intros H; by destruct (H x)|by exists e]. Qed.

(** The claim fails at [demo_cfg_unknown], whose class [frobnicator] is in
    neither namespace: when the error is raised the configuration has been
    logged and the rate scheduler created and built. *)
Lemma C3_counterexample :
  registry demo_X !! lower "frobnicator" = None
  ∧ torch_optim demo_X !! "frobnicator" = None
  ∧ let out := build_optimizer demo_X demo_single demo_model 0 false
                 (demo_state demo_cfg_unknown) in
    out.1 = Raise (AttributeError "frobnicator")
    ∧ create_rate_scheduler demo_lr ∈ trace out.2
    ∧ lr_scheduler_build (Scheduler demo_lr false) ∈ trace out.2
    ∧ ¬ Forall (λ c, constructs_schedule c = false) (trace out.2).
Proof.
  split; [done|]. split; [done|].
  assert (Ht : trace (build_optimizer demo_X demo_single demo_model 0 false
                        (demo_state demo_cfg_unknown)).2
               = [logger_info (VStr "frobnicator") {[ "lr" := demo_lr ]};
                  create_rate_scheduler demo_lr;
                  lr_scheduler_build (Scheduler demo_lr false)])
    by (vm_compute; reflexivity).
  simpl. rewrite Ht. split; [vm_compute; reflexivity|].
  split; [set_solver|]. split; [set_solver|].
  intros H. apply Forall_cons in H as [_ H]. by apply Forall_cons in H as [? _].
Qed.

(** C3, amended: a class name that is neither in the registry under its
    lowercase form nor in [torch.optim] under its exact form makes
    [build_optimizer] raise, and no optimizer, wrapper or handle has been
    constructed. When [lr] is present and neither the logger nor the
    scheduler fails, the error is the [AttributeError] of the failed
    attribute lookup, and by then the configuration has been logged and the
    rate scheduler created and built. *)
Theorem C3_unknown_class (X : externals) (env : environment) m c enable_apex σ d s :
  heap σ !! c = Some d →
  d !! "class" = Some (VStr s) →
  registry X !! lower s = None →
  torch_optim X !! s = None →
  let out := build_optimizer X env m c enable_apex σ in
  let kw := try_eval X <$> delete "class" d in
  raises out.1
  ∧ (∃ cs, trace out.2 = trace σ ++ cs ∧ Forall (λ c, constructs_optimizer c = false) cs)
  ∧ ∀ lr, kw !! "lr" = Some lr →
      (∀ c, constructs_optimizer c = false → fails X c = None) →
      out.1 = Raise (AttributeError s)
      ∧ trace out.2 = trace σ ++ [logger_info (VStr s) kw; create_rate_scheduler lr;
                                  lr_scheduler_build (Scheduler lr false)].
Proof.
  intros Hc Hname Hreg Htorch out kw.
  assert (Hres : resolve_cls X (VStr s) = Raise (AttributeError s)).
  { unfold resolve_cls. by rewrite Hreg, Htorch. }
  split; [|split].
  - apply not_ok_raises. intros [m' h] Hok.
    destruct (build_optimizer X env m c enable_apex σ) as [r σ'] eqn:Hrun.
    simpl in Hok. subst r.
    destruct (build_optimizer_ok _ _ _ _ _ _ _ _ _ _ Hc Hrun)
      as (name & lr & cl & g & Hname' & _ & Hcl & _).
    congruence.
  - destruct (build_optimizer_calls X env m c enable_apex σ d Hc) as (cs & Ht & Hcs).
    exists cs. split; [done|].
    eapply Forall_impl; [exact Hcs|]. simpl. intros c0 (_ & _ & Hopt).
    destruct (constructs_optimizer c0); [|done].
    destruct (Hopt eq_refl) as (name & cl & g & Hname' & _ & Hcl & _). congruence.
  - intros lr Hlr Hf.
    refine (proj1 (build_optimizer_run X env m c enable_apex σ d
                     (λ r t', r = _ ∧ t' = _) Hc _ _)); [congruence|].
    intros name l Hname'. assert (name = VStr s) as -> by congruence.
    eapply local_mono; [by apply assemble_unresolved|]. done.
Qed.

Lemma C3_unknown_class_witness :
  raises (build_optimizer demo_X demo_cluster demo_model 0 true
            (demo_state demo_cfg_unknown)).1.
Proof.
  apply (C3_unknown_class demo_X demo_cluster demo_model 0 true
           (demo_state demo_cfg_unknown) demo_cfg_unknown "frobnicator");
    reflexivity.
Defined.

(** ** C4: missing [lr], [no_decay] without [weight_decay] *)

Lemma evaluated_lookup (X : externals) (d : dict) k :
  k ≠ "class" → (try_eval X <$> delete "class" d) !! k = try_eval X <$> d !! k.
Proof. intros Hk. by rewrite lookup_fmap, lookup_delete_ne. Qed.

Lemma partition_parameters_no_weight_decay m (kw : dict) :
  is_Some (kw !! "no_decay") → kw !! "weight_decay" = None →
  (partition_parameters m kw).1 = Raise (KeyError "weight_decay").
Proof.
  intros [v Hv] Hwd. unfold partition_parameters. rewrite Hv.
  by rewrite lookup_delete_ne, Hwd.
Qed.

(** With [no_decay] but no [weight_decay] in the caller's mapping, and
    [no_decay] no keyword of the handle, the grouping raises. *)
Lemma grouping_no_weight_decay (X : externals) m (d : dict) :
  is_Some (d !! "no_decay") → d !! "weight_decay" = None →
  "no_decay" ∉ handle_args X →
  let kw := try_eval X <$> delete "class" d in
  (partition_parameters m (split_args (handle_args X) (delete "lr" kw) ∅).1).1
  = Raise (KeyError "weight_decay").
Proof.
  intros [v Hv] Hwd Hnd kw. apply partition_parameters_no_weight_decay.
  - rewrite split_args_lookup_1. rewrite decide_False by done.
    rewrite lookup_delete_ne by done. unfold kw.
    rewrite evaluated_lookup by done. rewrite Hv. by eexists.
  - rewrite split_args_lookup_1. case_decide; [done|].
    rewrite lookup_delete_ne by done. unfold kw.
    rewrite evaluated_lookup by done. by rewrite Hwd.
Qed.

Section missing.
Context (X : externals) (env : environment).

(** Without [lr], the run stops at [configs.pop('lr')], after the logging. *)
Lemma assemble_no_lr l (kw : dict) t m enable_apex name :
  kw !! "lr" = None →
  fails X (logger_info name kw) = None →
  local l kw t (assemble X env m enable_apex name l) (λ r _ t',
    r = Raise (KeyError "lr") ∧ t' = t ++ [logger_info name kw]).
Proof.
  intros Hlr Hf. unfold assemble.
  local_step. local_step.
  local_step. local_step; [intros e'; by rewrite Hf|intros _].
  local_step. local_step. by rewrite Hlr.
Qed.

(** A run that finds [lr] and resolves the class, but whose grouping of the
    parameters raises: that error comes out, before any optimizer is
    constructed. *)
Lemma assemble_ungrouped l (kw : dict) t m enable_apex name lr cl e :
  kw !! "lr" = Some lr →
  resolve_cls X name = Ok cl →
  (partition_parameters m (split_args (handle_args X) (delete "lr" kw) ∅).1).1 = Raise e →
  (∀ c, constructs_optimizer c = false → fails X c = None) →
  local l kw t (assemble X env m enable_apex name l) (λ r _ t',
    r = Raise e
    ∧ t' = t ++ [logger_info name kw; create_rate_scheduler lr;
                 lr_scheduler_build (Scheduler lr false)]).
Proof.
  intros Hlr Hcl Hg Hf. unfold assemble.
  local_step. local_step.
  local_step. local_step; [intros e'; by rewrite Hf|intros _].
  local_step. local_step. rewrite Hlr.
  local_step. local_step; [intros e'; by rewrite Hf|intros _].
  local_step. local_step; [intros e'; by rewrite Hf|intros _].
  local_step. local_step.
  local_step. local_step. rewrite Hcl.
  local_step. local_step. rewrite Hg.
  by rewrite <- !app_assoc.
Qed.

End missing.

(** The claim fails at [demo_cfg_weight_decay], which has [weight_decay]
    without [no_decay]: [build_optimizer] returns a handle, and the weight
    decay is passed on to the optimizer class. *)
Lemma C4_counterexample :
  is_Some (demo_cfg_weight_decay !! "weight_decay")
  ∧ demo_cfg_weight_decay !! "no_decay" = None
  ∧ ¬ raises (build_optimizer demo_X demo_single demo_model 0 false
                (demo_state demo_cfg_weight_decay)).1.
Proof.
  split; [by eexists|]. split; [done|].
  intros [e He]. vm_compute in He. discriminate.
Qed.

(** C4, amended: [build_optimizer] raises when [lr] is absent, and when
    [no_decay] is present without [weight_decay] (and [no_decay] is no
    keyword of the handle class); in both cases no optimizer, wrapper or
    handle has been constructed. The error is a [KeyError] naming the
    missing key, provided the steps before the failing lookup succeed.
    A [weight_decay] without [no_decay] is no error. *)
Theorem C4_missing_key (X : externals) (env : environment) m c enable_apex σ d :
  heap σ !! c = Some d →
  d !! "lr" = None
  ∨ (is_Some (d !! "no_decay") ∧ d !! "weight_decay" = None ∧ "no_decay" ∉ handle_args X) →
  let out := build_optimizer X env m c enable_apex σ in
  raises out.1
  ∧ (∃ cs, trace out.2 = trace σ ++ cs ∧ Forall (λ c, constructs_optimizer c = false) cs)
  ∧ (∀ name, d !! "class" = Some name →
       (∀ c, constructs_optimizer c = false → fails X c = None) →
       (d !! "lr" = None → out.1 = Raise (KeyError "lr"))
       ∧ (is_Some (d !! "lr") → (∃ cl, resolve_cls X name = Ok cl) →
          out.1 = Raise (KeyError "weight_decay"))).
Proof.
  intros Hc Hmiss out.
  set (kw := try_eval X <$> delete "class" d).
  assert (Hblock : ∀ g,
    is_Some (kw !! "lr") →
    (partition_parameters m (split_args (handle_args X) (delete "lr" kw) ∅).1).1 = Ok g →
    False).
  { intros g [lr Hlr] Hg. destruct Hmiss as [Hno|(Hnd & Hwd & Hargs)].
    - unfold kw in Hlr. rewrite evaluated_lookup, Hno in Hlr by done. done.
    - unfold kw in Hg. rewrite grouping_no_weight_decay in Hg by done. done. }
  split; [|split].
  - apply not_ok_raises. intros [m' h] Hok.
    destruct (build_optimizer X env m c enable_apex σ) as [r σ'] eqn:Hrun.
    simpl in Hok. subst r.
    destruct (build_optimizer_ok _ _ _ _ _ _ _ _ _ _ Hc Hrun)
      as (name & lr & cl & g & _ & Hlr & _ & Hg & _).
    by eapply Hblock.
  - destruct (build_optimizer_calls X env m c enable_apex σ d Hc) as (cs & Ht & Hcs).
    exists cs. split; [done|].
    eapply Forall_impl; [exact Hcs|]. simpl. intros c0 (_ & _ & Hopt).
    destruct (constructs_optimizer c0); [|done].
    destruct (Hopt eq_refl) as (name & cl & g & _ & Hlr & _ & Hg). exfalso. by eapply Hblock.
  - intros name Hname Hf. split.
    + intros Hno.
      refine (proj1 (build_optimizer_run X env m c enable_apex σ d
                       (λ r _, r = _) Hc _ _)); [congruence|].
      intros name' l Hname'.
      eapply local_mono; [apply assemble_no_lr|by intros ??? [??]].
      * by rewrite evaluated_lookup, Hno.
      * by apply Hf.
    + intros [lr0 Hlr] [cl Hcl]. destruct Hmiss as [Hno|(Hnd & Hwd & Hargs)]; [congruence|].
      refine (proj1 (build_optimizer_run X env m c enable_apex σ d
                       (λ r _, r = _) Hc _ _)); [congruence|].
      intros name' l Hname'. assert (name' = name) as -> by congruence.
      eapply local_mono; [eapply assemble_ungrouped|by intros ??? [??]]; try done.
      * by rewrite evaluated_lookup, Hlr.
      * by apply grouping_no_weight_decay.
Qed.

Lemma C4_missing_key_witness :
  raises (build_optimizer demo_X demo_single demo_model 0 false (demo_state demo_cfg_no_lr)).1
  ∧ raises (build_optimizer demo_X demo_single demo_model 0 false
              (demo_state demo_cfg_no_weight_decay)).1.
Proof.
  split.
  - apply (C4_missing_key demo_X demo_single demo_model 0 false
             (demo_state demo_cfg_no_lr) demo_cfg_no_lr); [reflexivity|].
    left. reflexivity.
  - apply (C4_missing_key demo_X demo_single demo_model 0 false
             (demo_state demo_cfg_no_weight_decay) demo_cfg_no_weight_decay); [reflexivity|].
    right. split; [by eexists|]. split; [reflexivity|]. apply (bool_decide_unpack _). vm_compute. exact I.
Defined.

(** ** C5: how the class name is resolved *)

(** The claim fails at the names [SGD] and [sgd], equal up to case: with
    [SGD] in [torch.optim] and neither in the registry, the first resolves
    and the second raises. *)
Lemma C5_counterexample :
  lower "sgd" = lower "SGD"
  ∧ registry demo_X !! lower "sgd" = None
  ∧ resolve_cls demo_X (VStr "SGD") = Ok "torch.optim.SGD"
  ∧ resolve_cls demo_X (VStr "sgd") = Raise (AttributeError "sgd").
Proof. by vm_compute. Qed.

(** C5, amended: the resolution has two tiers. The registry comes first and
    is consulted under the lowercase form of the name, so that names equal
    up to case that reach the registry resolve alike; only when that form
    is absent from the registry is [torch.optim] consulted, and then under
    the name exactly as written. *)
Theorem C5_two_tier_resolution (X : externals) (s : string) :
  (∀ c, registry X !! lower s = Some c → resolve_cls X (VStr s) = Ok c)
  ∧ (∀ s' c, lower s' = lower s → registry X !! lower s = Some c →
       resolve_cls X (VStr s') = Ok c)
  ∧ (registry X !! lower s = None →
       resolve_cls X (VStr s)
       = match torch_optim X !! s with
         | Some c => Ok c
         | None => Raise (AttributeError s)
         end).
Proof.
  unfold resolve_cls. split; [|split].
  - by intros c ->.
  - by intros s' c -> ->.
  - by intros ->.
Qed.

Lemma C5_two_tier_resolution_witness :
  resolve_cls demo_X (VStr "LAMB") = Ok "bycha.optim.Lamb"
  ∧ resolve_cls demo_X (VStr "Adam") = Ok "torch.optim.Adam".
Proof.
  split.
  - apply (proj1 (proj2 (C5_two_tier_resolution demo_X "lamb")) "LAMB"); reflexivity.
  - rewrite (proj2 (proj2 (C5_two_tier_resolution demo_X "Adam"))); reflexivity.
Defined.

(** ** C6: when horovod is called *)




(** ** C7: the evaluation of the configuration values *)




(** ** C8: the keyword arguments of the distributed wrapper *)

(** C8: on more than one worker, a successful run wraps the optimizer with
    [backward_passes_per_step] set to the [update_frequency] the handle is
    given (and left out when there is none), and with fp16 compression
    exactly when [env.fp16] holds and apex is off. *)
Theorem C8_wrapper_arguments (X : externals) (env : environment) m c enable_apex
    σ d m' h σ' :
  heap σ !! c = Some d →
  (distributed_world env > 1)%Z →
  build_optimizer X env m c enable_apex σ = (Ok (m', h), σ') →
  ∃ raw hk,
    hvd_DistributedOptimizer raw (named_parameters m) hk ∈ trace σ'
    ∧ h_optimizer h
      = (if enable_apex
         then AmpOptimizer (DistributedOptimizer raw (named_parameters m) hk) "O1"
                (default (VInt 1) (h_kwargs h !! "update_frequency"))
         else DistributedOptimizer raw (named_parameters m) hk)
    ∧ backward_passes_per_step hk = h_kwargs h !! "update_frequency"
    ∧ (hvd_compression hk = Some Compression_fp16 ↔ fp16 env = true ∧ enable_apex = false)
    ∧ (hvd_compression hk = None ↔ fp16 env = false ∨ enable_apex = true).
Proof.
  intros Hc Hw Hrun.
  destruct (build_optimizer_ok _ _ _ _ _ _ _ _ _ _ Hc Hrun)
    as (name & lr & cl & g & _ & _ & _ & _ & _ & -> & Ht & _).
  unfold success in *. simpl in *.
  unfold distribute_calls, distributed, amp_optimizer, num_losses, hvd_kwargs_of in *.
  rewrite bool_decide_eq_true_2 in * by done.
  eexists _, _. split; [|split; [|split; [|split]]].
  2:{ rewrite lookup_insert_ne by done. reflexivity. }
  - rewrite Ht. set_solver.
  - simpl. by rewrite lookup_insert_ne.
  - simpl. destruct (fp16 env), enable_apex; naive_solver.
  - simpl. destruct (fp16 env), enable_apex; naive_solver.
Qed.

Lemma C8_wrapper_arguments_witness :
  ∃ raw hk,
    hvd_DistributedOptimizer raw (named_parameters demo_model) hk
    ∈ trace (build_optimizer demo_X demo_cluster demo_model 0 false (demo_state demo_cfg)).2
    ∧ backward_passes_per_step hk = Some (VInt 4)
    ∧ hvd_compression hk = Some Compression_fp16.
Proof.
  destruct (build_optimizer demo_X demo_cluster demo_model 0 false (demo_state demo_cfg))
    as [[[m' h]|e] σ'] eqn:Hrun; [|vm_compute in Hrun; discriminate].
  destruct (C8_wrapper_arguments demo_X demo_cluster demo_model 0 false
              (demo_state demo_cfg) demo_cfg m' h σ' eq_refl eq_refl Hrun)
    as (raw & hk & Hin & _ & Hbp & Hcomp & _).
  exists raw, hk. split; [exact Hin|]. split.
  - rewrite Hbp. vm_compute in Hrun. injection Hrun as _ <- _. reflexivity.
  - apply Hcomp. split; reflexivity.
Defined.

(** ** C10: the caller's mapping *)

(** C10: every object the store held before a run of [build_optimizer],
    the caller's mapping among them, is the same after it, whether the run
    returned or raised; the run works on objects it creates. *)
Theorem C10_caller_mapping_unchanged (X : externals) (env : environment) m c enable_apex
    σ d :
  heap σ !! c = Some d →
  ∀ l o, heap σ !! l = Some o →
    heap (build_optimizer X env m c enable_apex σ).2 !! l = Some o.
Proof.
  intros Hc l o Hl.
  destruct (build_optimizer_run X env m c enable_apex σ d (λ _ _, True) Hc)
    as [_ [extra ->]]; [done| |].
  - intros name l' _. eapply local_mono; [apply assemble_calls|done].
  - by apply lookup_app_l_Some.
Qed.

Lemma C10_caller_mapping_unchanged_witness :
  heap (build_optimizer demo_X demo_cluster demo_model 0 true
          (demo_state demo_cfg_no_decay)).2 !! 0 = Some demo_cfg_no_decay.
Proof.
  apply (C10_caller_mapping_unchanged demo_X demo_cluster demo_model 0 true
           (demo_state demo_cfg_no_decay) demo_cfg_no_decay eq_refl 0 demo_cfg_no_decay
           eq_refl).
Defined.

(** ** C9: saving and restoring the handle *)

Section round_trip.
Context {Params OptState Input Rate : Type}.
Context (rate_at : nat → Rate)
  (update : Rate → Input → Params * OptState → Params * OptState).

Lemma handle_run_steps inputs n : ∀ from (x : running (Params := Params) (OptState := OptState)),
  run_steps (handle_run rate_at update inputs from n x) = n + run_steps x.
Proof.
  induction n as [|n IH]; intros from x; simpl; [done|].
  rewrite IH. unfold handle_step.
  destruct (update _ _ _) as [p s]. simpl. lia.
Qed.

Lemma handle_run_app inputs n1 : ∀ n2 from (x : running (Params := Params) (OptState := OptState)),
  handle_run rate_at update inputs from (n1 + n2) x
  = handle_run rate_at update inputs (from + n1) n2
      (handle_run rate_at update inputs from n1 x).
Proof.
  induction n1 as [|n1 IH]; intros n2 from x; simpl.
  - by rewrite Nat.add_0_r.
  - rewrite IH. f_equal. lia.
Qed.

(** C9: a handle that has taken [n] steps and whose [state_dict()] is
    loaded into a fresh handle over the same model continues as if it had
    never stopped: [n] more steps on the same inputs end where [n + n]
    uninterrupted steps end, parameter values included, and the restored
    step counter is the saved one. *)
Theorem C9_round_trip (s0 : OptState) (p0 : Params) (inputs : nat → Input) (n : nat) :
  let saved := handle_run rate_at update inputs 0 n (handle_fresh s0 p0) in
  let restored :=
    handle_load_state_dict (handle_state_dict saved) (handle_fresh s0 (run_params saved)) in
  run_steps restored = run_steps saved
  ∧ run_steps saved = n
  ∧ handle_run rate_at update inputs n n restored
    = handle_run rate_at update inputs 0 (n + n) (handle_fresh s0 p0)
  ∧ run_params (handle_run rate_at update inputs n n restored)
    = run_params (handle_run rate_at update inputs 0 (n + n) (handle_fresh s0 p0)).
Proof.
  intros saved restored.
  assert (Hrestored : restored = saved) by (unfold restored; by destruct saved).
  assert (Hrun : handle_run rate_at update inputs n n restored
                 = handle_run rate_at update inputs 0 (n + n) (handle_fresh s0 p0))
    by (by rewrite handle_run_app, Hrestored).
  split; [by rewrite Hrestored|]. split; [|split; [done|by rewrite Hrun]].
  unfold saved. rewrite handle_run_steps. simpl. lia.
Qed.

End round_trip.

(** * Further properties of [build_optimizer] *)

(** ** What a returned handle holds *)

Lemma partition_parameters_rest m (kw : dict) g :
  (partition_parameters m kw).1 = Ok g →
  (partition_parameters m kw).2
  = match kw !! "no_decay" with
    | Some _ => delete "weight_decay" (delete "no_decay" kw)
    | None => kw
    end.
Proof.
  unfold partition_parameters.
  destruct (kw !! "no_decay") as [nd|]; [|done].
  destruct (delete "no_decay" kw !! "weight_decay") as [w|]; [|done].
  destruct (comprehension _ (named_parameters m)) as [[decayed|e] gen]; [|done].
  by destruct (comprehension _ gen) as [[undecayed|e] gen'].
Qed.

(** The elements a comprehension keeps: those of the generator that pass
    the condition, in order; the condition raised on none. *)
Lemma comprehension_filter keep gen ps gen' :
  comprehension keep gen = (Ok ps, gen') →
  ps = (filter (λ np, keep np.1 = Ok true) gen).*2
  ∧ Forall (λ np, ∃ b, keep np.1 = Ok b) gen.
Proof.
  revert ps gen'. induction gen as [|[n p] gen IH]; intros ps gen'; simpl.
  - by intros [= <- _].
  - destruct (keep n) as [b|e] eqn:Hk; [|done].
    destruct (comprehension keep gen) as [[ps'|e] g] eqn:Hc; [|done].
    intros [= <- _]. destruct (IH _ _ eq_refl) as [-> HF].
    split; [|constructor; eauto].
    rewrite filter_cons. simpl. rewrite Hk.
    destruct b; by case_decide.
Qed.

Section handle.
Context (X : externals) (env : environment).

(** The parts of the handle a successful run returns. *)
Lemma build_optimizer_handle m c enable_apex σ d m' h σ' :
  heap σ !! c = Some d →
  build_optimizer X env m c enable_apex σ = (Ok (m', h), σ') →
  ∃ name lr cl g,
    let kw := try_eval X <$> delete "class" d in
    let sa := split_args (handle_args X) (delete "lr" kw) ∅ in
    let rest := (partition_parameters m sa.1).2 in
    let raw := TorchOptimizer cl g (rate X (Scheduler lr true)) rest in
    d !! "class" = Some name ∧ kw !! "lr" = Some lr ∧ resolve_cls X name = Ok cl
    ∧ (partition_parameters m sa.1).1 = Ok g
    ∧ raw_optimizer (h_optimizer h) = raw
    ∧ h_kwargs h = <["enable_apex" := VBool enable_apex]> sa.2
    ∧ h_lr_scheduler h = Scheduler lr true
    ∧ h_model h = m'
    ∧ m' = amp_model m enable_apex
    ∧ h_optimizer h
      = amp_optimizer enable_apex sa.2 (distributed env m enable_apex sa.2 raw)
    ∧ trace σ'
      = trace σ
        ++ [logger_info name kw; create_rate_scheduler lr;
            lr_scheduler_build (Scheduler lr false);
            cls_init cl g (rate X (Scheduler lr true)) rest]
        ++ distribute_calls env m enable_apex sa.2 raw
        ++ apex_calls m enable_apex sa.2 (distributed env m enable_apex sa.2 raw)
        ++ [Optimizer_init m' (h_optimizer h) (Scheduler lr true) (h_kwargs h)].
Proof.
  intros Hc Hrun.
  destruct (build_optimizer_ok _ _ _ _ _ _ _ _ _ _ Hc Hrun)
    as (name & lr & cl & g & Hname & Hlr & Hcl & Hg & -> & -> & Ht & _).
  exists name, lr, cl, g. simpl. repeat (split; [done|]).
  split; [|done].
  unfold amp_optimizer, distributed.
  by destruct enable_apex, (bool_decide (distributed_world env > 1)%Z).
Qed.

End handle.

(** X1: a mapping without [class] makes [build_optimizer] raise
    [KeyError('class')] at once: nothing is logged and no collaborator is
    called. *)
Theorem X1_missing_class (X : externals) (env : environment) m c enable_apex σ d :
  heap σ !! c = Some d →
  d !! "class" = None →
  (build_optimizer X env m c enable_apex σ).1 = Raise (KeyError "class")
  ∧ trace (build_optimizer X env m c enable_apex σ).2 = trace σ.
Proof.
  intros Hc Hname. rewrite (build_optimizer_unfold X env m c enable_apex σ d Hc).
  by rewrite Hname.
Qed.

Lemma X1_missing_class_witness :
  (build_optimizer demo_X demo_cluster demo_model 0 true
     (State [{[ "lr" := demo_lr ]}] [])).1 = Raise (KeyError "class").
Proof.
  apply (X1_missing_class demo_X demo_cluster demo_model 0 true
           (State [{[ "lr" := demo_lr ]}] []) {[ "lr" := demo_lr ]}); reflexivity.
Defined.

(** X2: the keyword arguments of the handle. A returned handle is
    constructed with [enable_apex] bound to the argument of
    [build_optimizer], whatever the mapping says, and otherwise with
    exactly the entries of the mapping whose keys are keyword parameters
    of the handle class, their values evaluated; [lr] and [class] are never
    among them. *)
Theorem X2_handle_keywords (X : externals) (env : environment) m c enable_apex
    σ d m' h σ' :
  heap σ !! c = Some d →
  build_optimizer X env m c enable_apex σ = (Ok (m', h), σ') →
  h_kwargs h !! "enable_apex" = Some (VBool enable_apex)
  ∧ ∀ k, k ≠ "enable_apex" →
      h_kwargs h !! k
      = if decide (k ∈ handle_args X ∧ k ≠ "lr" ∧ k ≠ "class")
        then try_eval X <$> d !! k else None.
Proof.
  intros Hc Hrun.
  destruct (build_optimizer_handle X env _ _ _ _ _ _ _ _ Hc Hrun)
    as (name & lr & cl & g & _ & _ & _ & _ & _ & -> & _).
  split; [by rewrite lookup_insert_eq|].
  intros k Hk. rewrite lookup_insert_ne by done.
  rewrite split_args_lookup_2, lookup_empty.
  destruct (decide (k = "lr")) as [->|Hlr].
  { rewrite lookup_delete_eq. by repeat case_decide; naive_solver. }
  rewrite lookup_delete_ne by done.
  destruct (decide (k = "class")) as [->|Hclass].
  { rewrite lookup_fmap, lookup_delete_eq. by repeat case_decide; naive_solver. }
  rewrite evaluated_lookup by done.
  repeat case_decide; try naive_solver. by destruct (d !! k).
Qed.

Lemma X2_handle_keywords_witness :
  ∃ m' h σ',
    build_optimizer demo_X demo_single demo_model 0 false (demo_state demo_cfg)
    = (Ok (m', h), σ')
    ∧ h_kwargs h !! "update_frequency" = Some (VInt 4)
    ∧ h_kwargs h !! "momentum" = None.
Proof.
  destruct (build_optimizer demo_X demo_single demo_model 0 false (demo_state demo_cfg))
    as [[[m' h]|e] σ'] eqn:Hrun; [|vm_compute in Hrun; discriminate].
  exists m', h, σ'. split; [reflexivity|].
  destruct (X2_handle_keywords demo_X demo_single demo_model 0 false
              (demo_state demo_cfg) demo_cfg m' h σ' eq_refl Hrun) as [_ Hkw].
  split; rewrite Hkw by done; reflexivity.
Defined.

(** What is left of the evaluated dictionary for the optimizer class, key
    by key. *)
Lemma class_keywords_lookup (X : externals) m (d : dict) g :
  let kw := try_eval X <$> delete "class" d in
  let sa := split_args (handle_args X) (delete "lr" kw) ∅ in
  (partition_parameters m sa.1).1 = Ok g →
  ∀ k, (partition_parameters m sa.1).2 !! k
       = if decide (k ∈ handle_args X ∨ k = "lr" ∨ k = "class") then None
         else if decide ((is_Some (d !! "no_decay") ∧ "no_decay" ∉ handle_args X)
                         ∧ (k = "no_decay" ∨ k = "weight_decay")) then None
         else try_eval X <$> d !! k.
Proof.
  intros kw sa Hg k. rewrite (partition_parameters_rest _ _ _ Hg).
  assert (Hsa : ∀ k, sa.1 !! k
                = if decide (k ∈ handle_args X ∨ k = "lr" ∨ k = "class") then None
                  else try_eval X <$> d !! k).
  { clear. intros k. unfold sa. rewrite split_args_lookup_1.
    destruct (decide (k = "lr")) as [->|?].
    { rewrite lookup_delete_eq. case_decide; case_decide; tauto. }
    rewrite lookup_delete_ne by done.
    destruct (decide (k = "class")) as [->|?].
    { unfold kw. rewrite lookup_fmap, lookup_delete_eq. case_decide; case_decide; tauto. }
    unfold kw. rewrite evaluated_lookup by done. case_decide; case_decide; tauto. }
  assert (Hnd : is_Some (sa.1 !! "no_decay")
                ↔ is_Some (d !! "no_decay") ∧ "no_decay" ∉ handle_args X).
  { rewrite Hsa. case_decide as Hk.
    - split; [by intros [? [=]]|]. intros [_ Hn]. destruct Hk as [?|[[=]|[=]]]. done.
    - rewrite fmap_is_Some. split; [|tauto]. intros ?. split; [done|tauto]. }
  clear Hg. destruct (sa.1 !! "no_decay") as [nd|] eqn:Hsnd.
  - assert (Hyes : is_Some (d !! "no_decay") ∧ "no_decay" ∉ handle_args X)
      by (apply Hnd; eauto).
    destruct (decide (k = "weight_decay")) as [->|Hwd].
    { rewrite lookup_delete_eq. case_decide; [done|]. rewrite decide_True; [done|tauto]. }
    rewrite lookup_delete_ne by done.
    destruct (decide (k = "no_decay")) as [->|Hno].
    { rewrite lookup_delete_eq. case_decide; [done|]. rewrite decide_True; [done|tauto]. }
    rewrite lookup_delete_ne by done. rewrite Hsa.
    case_decide; [done|]. rewrite decide_False; [done|tauto].
  - assert (Hno : ¬ (is_Some (d !! "no_decay") ∧ "no_decay" ∉ handle_args X)).
    { intros H. apply Hnd in H as [? [=]]. }
    rewrite Hsa. case_decide; [done|]. rewrite decide_False; [done|tauto].
Qed.

(** X3: the keyword arguments of the optimizer class. In a run that
    returns, the class is constructed with the rate of the built scheduler
    as [lr] and with the evaluated entries of the mapping that are left:
    never [class], the [lr] configuration, a keyword of the handle class or
    [no_decay]; every other entry but [weight_decay] is passed on;
    [weight_decay] is passed on when the mapping has no [no_decay], and
    consumed by the parameter groups when it has. *)
Theorem X3_class_keywords (X : externals) (env : environment) m c enable_apex
    σ d m' h σ' :
  heap σ !! c = Some d →
  build_optimizer X env m c enable_apex σ = (Ok (m', h), σ') →
  ∃ lr cl g rest,
    try_eval X <$> d !! "lr" = Some lr
    ∧ raw_optimizer (h_optimizer h) = TorchOptimizer cl g (rate X (Scheduler lr true)) rest
    ∧ cls_init cl g (rate X (Scheduler lr true)) rest ∈ trace σ'
    ∧ (∀ k, k ∈ handle_args X ∨ k = "lr" ∨ k = "class" ∨ k = "no_decay" →
         rest !! k = None)
    ∧ (∀ k, k ∉ handle_args X → k ≠ "lr" → k ≠ "class" → k ≠ "no_decay" →
         k ≠ "weight_decay" → rest !! k = try_eval X <$> d !! k)
    ∧ ("weight_decay" ∉ handle_args X →
         rest !! "weight_decay"
         = if decide (is_Some (d !! "no_decay") ∧ "no_decay" ∉ handle_args X)
           then None else try_eval X <$> d !! "weight_decay").
Proof.
  intros Hc Hrun.
  destruct (build_optimizer_handle X env _ _ _ _ _ _ _ _ Hc Hrun)
    as (name & lr & cl & g & _ & Hlr & _ & Hg & Hraw & _ & _ & _ & _ & _ & Ht).
  rewrite evaluated_lookup in Hlr by done.
  eexists lr, cl, g, _. split; [done|]. split; [exact Hraw|].
  split.
  { rewrite Ht. apply elem_of_app. right. do 3 (apply elem_of_cons; right).
    apply elem_of_cons. by left. }
  pose proof (class_keywords_lookup X m d g Hg) as Hrest. simpl in Hrest.
  clear Ht Hraw Hrun Hg. split; [|split].
  - intros k Hk. rewrite Hrest. clear Hrest.
    destruct (decide (k ∈ handle_args X ∨ k = "lr" ∨ k = "class")) as [|H1]; [done|].
    case_decide as H2; [done|].
    destruct Hk as [?|[?|[?| ->]]]; try tauto.
    destruct (d !! "no_decay") eqn:Hd; [|done].
    exfalso. apply H2. split; [|tauto]. split; [by eexists|]. tauto.
  - intros k ? ? ? ? ?. rewrite Hrest.
    rewrite decide_False by tauto. by rewrite decide_False by tauto.
  - intros Hwd. rewrite Hrest. clear Hrest.
    rewrite decide_False by (intros [?|[[=]|[=]]]; done).
    case_decide as H1; case_decide as H2; try done; exfalso; tauto.
Qed.

Lemma X3_class_keywords_witness :
  ∃ m' h σ' lr cl g rest,
    build_optimizer demo_X demo_single demo_model 0 false (demo_state demo_cfg_weight_decay)
    = (Ok (m', h), σ')
    ∧ raw_optimizer (h_optimizer h)
      = TorchOptimizer cl g (rate demo_X (Scheduler lr true)) rest
    ∧ rest !! "lr" = None
    ∧ rest !! "weight_decay" = Some (VFloat (1 # 100)).
Proof.
  destruct (build_optimizer demo_X demo_single demo_model 0 false
              (demo_state demo_cfg_weight_decay))
    as [[[m' h]|e] σ'] eqn:Hrun; [|vm_compute in Hrun; discriminate].
  destruct (X3_class_keywords demo_X demo_single demo_model 0 false
              (demo_state demo_cfg_weight_decay) demo_cfg_weight_decay m' h σ'
              eq_refl Hrun)
    as (lr & cl & g & rest & _ & Hraw & _ & Hnone & _ & Hwd).
  exists m', h, σ', lr, cl, g, rest. split; [reflexivity|]. split; [exact Hraw|].
  split; [apply Hnone; tauto|].
  rewrite Hwd by (apply (bool_decide_unpack _); vm_compute; exact I).
  reflexivity.
Defined.

(** ** The parameter groups *)

(** X4: the groups built from [no_decay]. When the mapping has [no_decay]
    (no keyword of the handle class) and the run returns, the optimizer
    class is given two groups: the first holds, in the order of the model,
    the parameters whose names contain none of the exclusion strings, with
    the evaluated [weight_decay]; the second, with weight decay 0.0, is
    empty, whatever the model. *)
Theorem X4_no_decay_groups (X : externals) (env : environment) m c enable_apex
    σ d m' h σ' no_decay :
  heap σ !! c = Some d →
  build_optimizer X env m c enable_apex σ = (Ok (m', h), σ') →
  d !! "no_decay" = Some no_decay →
  "no_decay" ∉ handle_args X →
  ∃ cl wd r rest,
    try_eval X <$> d !! "weight_decay" = Some wd
    ∧ raw_optimizer (h_optimizer h)
      = TorchOptimizer cl
          (ParamGroups
             [Group (filter (λ np, any_no_decay (try_eval X no_decay) np.1 = Ok false)
                       (m_named m)).*2 wd;
              Group [] (VFloat 0)]) r rest
    ∧ Forall (λ np, ∃ b, any_no_decay (try_eval X no_decay) np.1 = Ok b) (m_named m).
Proof.
  intros Hc Hrun Hd Hargs.
  destruct (build_optimizer_handle X env _ _ _ _ _ _ _ _ Hc Hrun)
    as (name & lr & cl & g & _ & _ & _ & Hg & Hraw & _).
  rewrite Hraw. clear Hraw Hrun.
  set (sa := split_args (handle_args X)
               (delete "lr" (try_eval X <$> delete "class" d)) ∅) in *.
  assert (Hnd : sa.1 !! "no_decay" = Some (try_eval X no_decay)).
  { unfold sa. rewrite split_args_lookup_1, decide_False by done.
    rewrite lookup_delete_ne by done. by rewrite evaluated_lookup, Hd by done. }
  assert (Hwd : delete "no_decay" sa.1 !! "weight_decay"
                = if decide ("weight_decay" ∈ handle_args X) then None
                  else try_eval X <$> d !! "weight_decay").
  { rewrite lookup_delete_ne by done. unfold sa. rewrite split_args_lookup_1.
    case_decide; [done|]. rewrite lookup_delete_ne by done.
    by rewrite evaluated_lookup by done. }
  unfold partition_parameters in Hg. rewrite Hnd in Hg.
  destruct (delete "no_decay" sa.1 !! "weight_decay") as [wd|] eqn:Hw; [|done].
  case_decide; [done|].
  destruct (comprehension _ (named_parameters m)) as [[decayed|e] gen] eqn:H1; [|done].
  pose proof (comprehension_exhausts _ _ _ _ H1) as ->.
  apply comprehension_filter in H1 as [-> HF]. simpl in Hg. injection Hg as <-.
  eexists cl, wd, _, _. split; [done|]. split.
  - do 3 f_equal. f_equal. f_equal. apply list_filter_iff. intros [n p]. simpl.
    by destruct (any_no_decay (try_eval X no_decay) n) as [[]|].
  - eapply Forall_impl; [exact HF|]. intros [n p] [b Hb]. simpl in *.
    destruct (any_no_decay (try_eval X no_decay) n) as [b'|]; [by eexists|done].
Qed.

Lemma X4_no_decay_groups_witness :
  ∃ m' h σ' cl wd r rest,
    build_optimizer demo_X demo_single demo_model 0 false (demo_state demo_cfg_no_decay)
    = (Ok (m', h), σ')
    ∧ raw_optimizer (h_optimizer h)
      = TorchOptimizer cl
          (ParamGroups
             [Group (filter (λ np, any_no_decay (try_eval demo_X (VList [VStr "bias"])) np.1
                                   = Ok false) (m_named demo_model)).*2 wd;
              Group [] (VFloat 0)]) r rest.
Proof.
  destruct (build_optimizer demo_X demo_single demo_model 0 false
              (demo_state demo_cfg_no_decay))
    as [[[m' h]|e] σ'] eqn:Hrun; [|vm_compute in Hrun; discriminate].
  destruct (X4_no_decay_groups demo_X demo_single demo_model 0 false
              (demo_state demo_cfg_no_decay) demo_cfg_no_decay m' h σ'
              (VList [VStr "bias"]) eq_refl Hrun eq_refl)
    as (cl & wd & r & rest & _ & Hraw & _).
  { apply (bool_decide_unpack _). vm_compute. exact I. }
  exists m', h, σ', cl, wd, r, rest. split; [reflexivity|exact Hraw].
Defined.

(** X5: without [no_decay] among the entries left for the optimizer class,
    a run that returns hands [model.parameters()] to the class: one group,
    all the parameters of the model in its order. *)
Theorem X5_all_parameters (X : externals) (env : environment) m c enable_apex
    σ d m' h σ' :
  heap σ !! c = Some d →
  build_optimizer X env m c enable_apex σ = (Ok (m', h), σ') →
  d !! "no_decay" = None ∨ "no_decay" ∈ handle_args X →
  ∃ cl r rest,
    raw_optimizer (h_optimizer h) = TorchOptimizer cl (Parameters (parameters m)) r rest
    ∧ groups_of (Parameters (parameters m)) = [(m_named m).*2].
Proof.
  intros Hc Hrun Hd.
  destruct (build_optimizer_handle X env _ _ _ _ _ _ _ _ Hc Hrun)
    as (name & lr & cl & g & _ & _ & _ & Hg & Hraw & _).
  rewrite Hraw. clear Hraw Hrun.
  set (sa := split_args (handle_args X)
               (delete "lr" (try_eval X <$> delete "class" d)) ∅) in *.
  assert (Hnd : sa.1 !! "no_decay" = None).
  { unfold sa. rewrite split_args_lookup_1. case_decide; [done|].
    rewrite lookup_delete_ne by done. rewrite evaluated_lookup by done.
    destruct Hd as [->|?]; done. }
  destruct (partition_parameters_without_no_decay m sa.1 Hnd) as [Hp Hgroups].
  rewrite Hp in Hg. injection Hg as <-. eauto.
Qed.

Lemma X5_all_parameters_witness :
  ∃ m' h σ' cl r rest,
    build_optimizer demo_X demo_single demo_model 0 false (demo_state demo_cfg)
    = (Ok (m', h), σ')
    ∧ raw_optimizer (h_optimizer h) = TorchOptimizer cl (Parameters [0; 1]) r rest.
Proof.
  destruct (build_optimizer demo_X demo_single demo_model 0 false (demo_state demo_cfg))
    as [[[m' h]|e] σ'] eqn:Hrun; [|vm_compute in Hrun; discriminate].
  destruct (X5_all_parameters demo_X demo_single demo_model 0 false
              (demo_state demo_cfg) demo_cfg m' h σ' eq_refl Hrun (or_introl eq_refl))
    as (cl & r & rest & Hraw & _).
  exists m', h, σ', cl, r, rest. split; [reflexivity|exact Hraw].
Defined.

(** ** The apex stage and the order of the steps *)

(** X6: the apex stage. A run that returns hands back the model the handle
    holds. Without [enable_apex] it is the caller's model, apex is not
    called and the handle's optimizer is no apex wrapper; with
    [enable_apex], [amp.initialize] is called on the caller's model and the
    optimizer built so far with [opt_level='O1'] and with [num_losses] the
    handle's [update_frequency], or 1 when there is none, and the handle
    holds the model and the optimizer it returned. *)
Theorem X6_apex_stage (X : externals) (env : environment) m c enable_apex
    σ d m' h σ' :
  heap σ !! c = Some d →
  build_optimizer X env m c enable_apex σ = (Ok (m', h), σ') →
  ∃ cs, trace σ' = trace σ ++ cs
    ∧ h_model h = m'
    ∧ if enable_apex then
        ∃ o, let n := default (VInt 1) (h_kwargs h !! "update_frequency") in
          amp_initialize m o "O1" n ∈ cs
          ∧ m' = Model (m_named m) true
          ∧ h_optimizer h = AmpOptimizer o "O1" n
      else
        m' = m
        ∧ (∀ m0 o l n, amp_initialize m0 o l n ∉ cs)
        ∧ ∀ o l n, h_optimizer h ≠ AmpOptimizer o l n.
Proof.
  intros Hc Hrun.
  destruct (build_optimizer_handle X env _ _ _ _ _ _ _ _ Hc Hrun)
    as (name & lr & cl & g & _ & _ & _ & _ & _ & Hkw & _ & Hm & Hm' & Ho & Ht).
  eexists. split; [exact Ht|]. split; [done|]. rewrite Hkw, lookup_insert_ne by done.
  unfold amp_model, amp_optimizer, apex_calls, num_losses in *.
  destruct enable_apex.
  - eexists. split; [|split; [done|exact Ho]].
    rewrite !elem_of_app. right. right. left. by apply elem_of_cons; left.
  - split; [done|]. split.
    + intros m0 o l n.
      rewrite !elem_of_app, !elem_of_cons, elem_of_nil.
      unfold distribute_calls. case_bool_decide; rewrite ?elem_of_cons, ?elem_of_nil;
        naive_solver.
    + intros o l n. rewrite Ho. unfold distributed. by case_bool_decide.
Qed.

Lemma X6_apex_stage_witness :
  ∃ m' h σ' o,
    build_optimizer demo_X demo_single demo_model 0 true (demo_state demo_cfg)
    = (Ok (m', h), σ')
    ∧ m' = Model (m_named demo_model) true
    ∧ h_optimizer h = AmpOptimizer o "O1" (VInt 4).
Proof.
  destruct (build_optimizer demo_X demo_single demo_model 0 true (demo_state demo_cfg))
    as [[[m' h]|e] σ'] eqn:Hrun; [|vm_compute in Hrun; discriminate].
  destruct (X6_apex_stage demo_X demo_single demo_model 0 true
              (demo_state demo_cfg) demo_cfg m' h σ' eq_refl Hrun)
    as (cs & _ & _ & o & _ & Hm & Ho).
  exists m', h, σ', o. split; [reflexivity|]. split; [exact Hm|].
  rewrite Ho. vm_compute in Hrun. injection Hrun as _ <- _. reflexivity.
Defined.

(** X7: the order of the steps. A run that returns has, in this order,
    logged the class name with the evaluated configuration ([lr] still in
    it), created the rate scheduler from the evaluated [lr] entry, built
    it, and constructed the optimizer class with the rate of the built
    scheduler; the handle is constructed last, over the built scheduler and
    the model and optimizer that are returned. *)
Theorem X7_order_of_steps (X : externals) (env : environment) m c enable_apex
    σ d m' h σ' :
  heap σ !! c = Some d →
  build_optimizer X env m c enable_apex σ = (Ok (m', h), σ') →
  ∃ name lr cl g rest mid,
    d !! "class" = Some name
    ∧ try_eval X <$> d !! "lr" = Some lr
    ∧ h_lr_scheduler h = Scheduler lr true
    ∧ trace σ'
      = trace σ
        ++ [logger_info name (try_eval X <$> delete "class" d);
            create_rate_scheduler lr;
            lr_scheduler_build (Scheduler lr false);
            cls_init cl g (rate X (Scheduler lr true)) rest]
        ++ mid
        ++ [Optimizer_init m' (h_optimizer h) (Scheduler lr true) (h_kwargs h)]
    ∧ Forall (λ c, is_hvd c = true ∨ ∃ m0 o l n, c = amp_initialize m0 o l n) mid.
Proof.
  intros Hc Hrun.
  destruct (build_optimizer_handle X env _ _ _ _ _ _ _ _ Hc Hrun)
    as (name & lr & cl & g & Hname & Hlr & _ & _ & _ & _ & Hs & _ & _ & _ & Ht).
  rewrite evaluated_lookup in Hlr by done.
  rewrite Ht. clear Ht Hrun.
  rewrite (app_assoc (distribute_calls _ _ _ _ _) (apex_calls _ _ _ _)).
  eexists name, lr, cl, g, _, _. split; [done|]. split; [done|]. split; [done|].
  split; [reflexivity|].
  apply Forall_app; split.
  - unfold distribute_calls. case_bool_decide; [|done].
    repeat (apply Forall_cons; split; [by left|]). done.
  - unfold apex_calls. destruct enable_apex; [|done].
    apply Forall_cons; split; [|done]. right. by do 4 eexists.
Qed.

Lemma X7_order_of_steps_witness :
  ∃ m' h σ', build_optimizer demo_X demo_cluster demo_model 0 true (demo_state demo_cfg)
             = (Ok (m', h), σ')
             ∧ h_lr_scheduler h = Scheduler demo_lr true.
Proof.
  destruct (build_optimizer demo_X demo_cluster demo_model 0 true (demo_state demo_cfg))
    as [[[m' h]|e] σ'] eqn:Hrun; [|vm_compute in Hrun; discriminate].
  destruct (X7_order_of_steps demo_X demo_cluster demo_model 0 true
              (demo_state demo_cfg) demo_cfg m' h σ' eq_refl Hrun)
    as (name & lr & cl & g & rest & mid & _ & Hlr & Hs & _).
  exists m', h, σ'. split; [reflexivity|].
  rewrite Hs. vm_compute in Hlr. by injection Hlr as <-.
Defined.

(** ** Failed runs *)

Section failed.
Context (X : externals) (env : environment).

Lemma distribute_calls_no_handle m enable_apex okw o :
  Forall (λ c, ∀ m0 o0 s k, c ≠ Optimizer_init m0 o0 s k)
    (distribute_calls env m enable_apex okw o).
Proof. unfold distribute_calls. case_bool_decide; by repeat constructor. Qed.

Lemma apex_calls_no_handle m enable_apex okw o :
  Forall (λ c, ∀ m0 o0 s k, c ≠ Optimizer_init m0 o0 s k)
    (apex_calls m enable_apex okw o).
Proof. unfold apex_calls. destruct enable_apex; by repeat constructor. Qed.

(** A run of [assemble] that raises has not constructed the handle. *)
Lemma assemble_raise_no_handle l (kw : dict) t m enable_apex name :
  local l kw t (assemble X env m enable_apex name l) (λ r _ t',
    ∃ cs, t' = t ++ cs
      ∧ (raises r → Forall (λ c, ∀ m0 o0 s k, c ≠ Optimizer_init m0 o0 s k) cs)).
Proof.
  unfold assemble.
  local_step. local_step.
  local_step. local_step; [intros; by exists []; rewrite app_nil_r|intros _].
  local_step. local_step.
  destruct (kw !! "lr") as [lr|] eqn:Hlr.
  2:{ eexists; split; [done|]. by repeat constructor. }
  local_step. local_step; [intros; eexists; split; [done|]; by repeat constructor|intros _].
  local_step. local_step.
  { intros. rewrite <- !app_assoc. eexists; split; [done|]. by repeat constructor. }
  intros _.
  local_step. local_step.
  local_step. local_step.
  destruct (resolve_cls X name) as [c|] eqn:Hc.
  2:{ rewrite <- !app_assoc. eexists; split; [done|]. by repeat constructor. }
  local_step. local_step.
  destruct (partition_parameters m _).1 as [g|] eqn:Hg.
  2:{ rewrite <- !app_assoc. eexists; split; [done|]. by repeat constructor. }
  local_step. local_step.
  local_step. local_step.
  { intros. rewrite <- !app_assoc. eexists; split; [done|]. by repeat constructor. }
  intros _.
  local_step. apply local_distribute.
  { intros e cs [k Hk]. rewrite <- !app_assoc. eexists; split; [done|]. intros _.
    simpl. repeat (apply Forall_cons; split; [done|]).
    eapply (Forall_app _ cs k). rewrite <- Hk. apply distribute_calls_no_handle. }
  intros _.
  local_step. apply local_apex.
  { intros e. rewrite <- !app_assoc. eexists; split; [done|]. intros _.
    simpl. repeat (apply Forall_cons; split; [done|]).
    apply distribute_calls_no_handle. }
  intros _.
  local_step. local_step.
  { intros. rewrite <- !app_assoc. eexists; split; [done|]. intros _.
    simpl. repeat (apply Forall_cons; split; [done|]).
    apply Forall_app; split; [apply distribute_calls_no_handle|apply apex_calls_no_handle]. }
  intros _. local_step.
  rewrite <- !app_assoc. eexists; split; [done|]. by intros [e [=]].
Qed.

End failed.

(** X8: a run that raises, for whatever reason (a missing key, an unknown
    class, a collaborator that fails), has not constructed the handle: the
    handle class is instantiated last, and only in a run that returns. *)
Theorem X8_failed_run_no_handle (X : externals) (env : environment) m c enable_apex σ d :
  heap σ !! c = Some d →
  raises (build_optimizer X env m c enable_apex σ).1 →
  ∃ cs, trace (build_optimizer X env m c enable_apex σ).2 = trace σ ++ cs
    ∧ ∀ m0 o s kw, Optimizer_init m0 o s kw ∉ cs.
Proof.
  intros Hc Hraise.
  destruct (build_optimizer_run X env m c enable_apex σ d
              (λ r t', ∃ cs, t' = trace σ ++ cs
                 ∧ (raises r → Forall (λ c, ∀ m0 o0 s k, c ≠ Optimizer_init m0 o0 s k) cs))
              Hc) as [(cs & Ht & Hcs) _].
  - intros _. exists []. by rewrite app_nil_r.
  - intros name l _. eapply local_mono; [apply assemble_raise_no_handle|]. by simpl.
  - exists cs. split; [done|]. intros m0 o s kw Hin.
    eapply Forall_forall in Hcs; [|done|exact Hin]. by eapply Hcs.
Qed.

Lemma X8_failed_run_no_handle_witness :
  ∃ cs, trace (build_optimizer demo_X demo_cluster demo_model 0 true
                 (demo_state demo_cfg_no_weight_decay)).2 = [] ++ cs
        ∧ ∀ m0 o s kw, Optimizer_init m0 o s kw ∉ cs.
Proof.
  apply (X8_failed_run_no_handle demo_X demo_cluster demo_model 0 true
           (demo_state demo_cfg_no_weight_decay) demo_cfg_no_weight_decay eq_refl).
  eexists. vm_compute. reflexivity.
Defined.

(** ** The exclusion test [any(nd in n for nd in no_decay)] *)

Lemma prefix_append (p s : string) :
  String.prefix p s = true ↔ ∃ post, s = (p ++ post)%string.
Proof.
  revert p. induction s as [|b s IH]; intros [|a p]; simpl.
  - split; [by exists ""%string|done].
  - split; [done|by intros [? [=]]].
  - split; [by exists (String b s)|done].
  - destruct (Ascii.ascii_dec a b) as [->|Hne].
    + rewrite IH. split; intros [post Hp]; exists post.
      * by rewrite Hp.
      * by injection Hp.
    + split; [done|]. intros [post [= ? ?]]. done.
Qed.

(** [nd in n] holds exactly when [n] is some string, then [nd], then some
    string. *)
Lemma str_in_substring (nd n : string) :
  str_in nd n = true ↔ ∃ pre post, n = (pre ++ nd ++ post)%string.
Proof.
  induction n as [|b n IH]; cbn [str_in].
  - rewrite orb_false_r, prefix_append. split.
    + intros [post ->]. by exists ""%string, post.
    + intros ([|? pre] & post & Hn); [by exists post|done].
  - rewrite orb_true_iff, IH, prefix_append. split.
    + intros [[post ->]|(pre & post & ->)].
      * by exists ""%string, post.
      * by exists (String b pre), post.
    + intros ([|a pre] & post & Hn); simpl in Hn.
      * left. by exists post.
      * right. injection Hn as -> ->. by exists pre, post.
Qed.

(** X9: exclusion by a list of strings. With [no_decay] a list of strings
    the test never raises, and a parameter name is excluded exactly when
    one of the strings occurs in it as a contiguous run; the empty list
    excludes nothing. *)
Theorem X9_exclusion_by_substrings (nds : list string) (n : string) :
  ∃ b, any_no_decay (VList (VStr <$> nds)) n = Ok b
    ∧ (b = true ↔ ∃ nd pre post, nd ∈ nds ∧ n = (pre ++ nd ++ post)%string).
Proof.
  unfold any_no_decay. simpl. induction nds as [|nd nds IH]; simpl.
  - exists false. split; [done|]. split; [done|]. intros (? & ? & ? & Hin & _).
    by apply elem_of_nil in Hin.
  - destruct (str_in nd n) eqn:Hnd.
    + exists true. split; [done|]. split; [|done]. intros _.
      apply str_in_substring in Hnd as (pre & post & ->).
      exists nd, pre, post. split; [by left|done].
    + destruct IH as (b & Hany & Hb). exists b. split; [exact Hany|]. rewrite Hb.
      split.
      * intros (nd' & pre & post & Hin & Hn). exists nd', pre, post. split; [by right|done].
      * intros (nd' & pre & post & Hin & Hn). apply elem_of_cons in Hin as [->|Hin].
        -- assert (str_in nd n = true) by (apply str_in_substring; eauto). congruence.
        -- eauto 6.
Qed.

Lemma any_in_chars (s n : string) :
  any_in (chars s) n
  = Ok (existsb (λ a, str_in (String a EmptyString) n) (list_ascii_of_string s)).
Proof.
  induction s as [|a s IH]; simpl; [done|].
  destruct (str_in (String a EmptyString) n); [done|]. by rewrite IH.
Qed.

Lemma str_in_char (a : ascii) (n : string) :
  str_in (String a EmptyString) n = true ↔ In a (list_ascii_of_string n).
Proof.
  rewrite str_in_substring. split.
  - intros (pre & post & ->). induction pre as [|b pre IH]; simpl; [by left|by right].
  - induction n as [|b n IH]; simpl; [done|]. intros [->|Hin].
    + by exists ""%string, n.
    + destruct (IH Hin) as (pre & post & ->). by exists (String b pre), post.
Qed.

(** X10: exclusion by a bare string. With [no_decay] a string rather than
    a list, the iteration runs over its characters: the test never raises,
    and a parameter name is excluded exactly when it shares a character
    with [no_decay]. *)
Theorem X10_exclusion_by_characters (s n : string) :
  ∃ b, any_no_decay (VStr s) n = Ok b
    ∧ (b = true ↔ ∃ a, In a (list_ascii_of_string s) ∧ In a (list_ascii_of_string n)).
Proof.
  unfold any_no_decay. simpl. rewrite any_in_chars. eexists. split; [done|].
  rewrite existsb_exists. by setoid_rewrite str_in_char.
Qed.

(** X11: a [no_decay] that cannot be iterated (a number, a boolean,
    [None]). The grouping raises the [TypeError] of the iteration as soon
    as the model has a parameter; over a model without parameters the test
    is never evaluated and the grouping returns two empty groups. Either
    way [no_decay] and [weight_decay] have been removed from the
    dictionary. *)
Theorem X11_no_decay_not_iterable (m : model) (l : loc) (σ : state) (kw : dict)
    no_decay wd e :
  heap σ !! l = Some kw →
  kw !! "no_decay" = Some no_decay →
  kw !! "weight_decay" = Some wd →
  py_iter no_decay = Raise e →
  (group_parameters m l σ).1
  = match m_named m with
    | [] => Ok (ParamGroups [Group [] wd; Group [] (VFloat 0)])
    | _ :: _ => Raise e
    end
  ∧ heap (group_parameters m l σ).2
    = <[l := delete "weight_decay" (delete "no_decay" kw)]> (heap σ).
Proof.
  intros Hl Hnd Hwd He.
  pose proof (local_group_parameters l kw (trace σ) m
    (λ r kw' _, r = (partition_parameters m kw).1 ∧ kw' = (partition_parameters m kw).2))
    as Hlocal.
  destruct (Hlocal (conj eq_refl eq_refl) σ Hl eq_refl) as (kw' & -> & -> & ->).
  unfold partition_parameters, named_parameters, any_no_decay.
  rewrite Hnd, lookup_delete_ne, Hwd, He by done.
  by destruct (m_named m) as [|[n p] rest].
Qed.

Lemma X11_no_decay_not_iterable_witness :
  (group_parameters demo_model 0
     (State [{[ "no_decay" := VInt 3; "weight_decay" := VInt 0 ]}] [])).1
  = Raise (TypeError "object is not iterable").
Proof.
  apply (X11_no_decay_not_iterable demo_model 0
           (State [{[ "no_decay" := VInt 3; "weight_decay" := VInt 0 ]}] [])
           {[ "no_decay" := VInt 3; "weight_decay" := VInt 0 ]} (VInt 3) (VInt 0)
           (TypeError "object is not iterable")); reflexivity.
Defined.

(** * The import of the sibling modules *)

Lemma str_length_append (s1 s2 : string) :
  String.length (s1 ++ s2)%string = String.length s1 + String.length s2.
Proof. induction s1 as [|a s1 IH]; simpl; [done|by rewrite IH]. Qed.

Lemma str_append_cons (a : ascii) (s t : string) :
  (String a s ++ t)%string = String a (s ++ t).
Proof. reflexivity. Qed.

Lemma str_append_nil_r (s : string) : (s ++ "")%string = s.
Proof. induction s as [|a s IH]; [done|by rewrite str_append_cons, IH]. Qed.

Lemma str_prefix_nil (s : string) : String.prefix "" s = true.
Proof. by destruct s. Qed.

(** Two ways of cutting one string: the shorter first part is a prefix of
    the longer. *)
Lemma str_append_split (a b c d : string) :
  (a ++ b)%string = (c ++ d)%string →
  String.length a ≤ String.length c →
  ∃ x, c = (a ++ x)%string ∧ b = (x ++ d)%string.
Proof.
  revert c. induction a as [|k a IH]; intros c Heq Hle.
  - exists c. by split.
  - destruct c as [|k' c]; [simpl in Hle; lia|].
    rewrite !str_append_cons in Heq. injection Heq as -> Heq.
    destruct (IH c Heq) as (x & -> & ->); [simpl in Hle; lia|].
    by exists x.
Qed.

Lemma str_take_append (s1 s2 : string) : str_take (String.length s1) (s1 ++ s2) = s1.
Proof.
  induction s1 as [|a s1 IH]; [by destruct s2|].
  rewrite str_append_cons. simpl. by rewrite IH.
Qed.

Lemma str_endswith_append (s suf : string) :
  str_endswith s suf = true ↔ ∃ pre, s = (pre ++ suf)%string.
Proof.
  induction s as [|b s IH]; cbn [str_endswith].
  - rewrite orb_false_r, String.eqb_eq. split.
    + intros <-. by exists ""%string.
    + intros [[|? pre] Hs]; [done|done].
  - rewrite orb_true_iff, IH, String.eqb_eq. split.
    + intros [<-|[pre ->]]; [by exists ""%string|by exists (String b pre)].
    + intros [[|a pre] Hs]; simpl in Hs; [by left|].
      right. injection Hs as _ ->. by exists pre.
Qed.

(** [find] returns the length of the shortest string after which [sub]
    occurs, and -1 exactly when [sub] does not occur. *)
Lemma find_from_spec (sub s : string) : ∀ i,
  (str_in sub s = false ∧ find_from i s sub = (-1)%Z)
  ∨ ∃ pre post,
      s = (pre ++ sub ++ post)%string
      ∧ find_from i s sub = (i + Z.of_nat (String.length pre))%Z
      ∧ ∀ pre' post', s = (pre' ++ sub ++ post')%string →
          String.length pre ≤ String.length pre'.
Proof.
  induction s as [|b s IH]; intros i; cbn [find_from str_in].
  - destruct (String.prefix sub "") eqn:Hp.
    + right. apply prefix_append in Hp as [post Hp]. exists ""%string, post.
      split; [done|]. split; [simpl; lia|]. intros; simpl; lia.
    + by left.
  - destruct (String.prefix sub (String b s)) eqn:Hp.
    + right. apply prefix_append in Hp as [post Hp]. exists ""%string, post.
      split; [done|]. split; [simpl; lia|]. intros; simpl; lia.
    + destruct (IH (i + 1)%Z) as [[Hin Hf]|(pre & post & -> & Hf & Hmin)].
      * left. by rewrite Hin, Hf.
      * right. exists (String b pre), post. split; [done|]. split.
        { rewrite Hf. simpl String.length. lia. }
        intros [|a pre'] post' Hs; simpl in Hs.
        -- assert (String.prefix sub (String b (pre ++ sub ++ post)) = true) as Hp'
             by (apply prefix_append; eauto).
           congruence.
        -- injection Hs as _ Hs. apply Hmin in Hs. simpl. lia.
Qed.

(** The module name of a file that ends in [.py]: what precedes the first
    [.py] of the file name. *)
Lemma module_name_py (file : string) :
  str_endswith file ".py" = true →
  ∃ rest,
    file = (module_name file ++ ".py" ++ rest)%string
    ∧ ∀ pre post, file = (pre ++ ".py" ++ post)%string →
        String.length (module_name file) ≤ String.length pre.
Proof.
  intros Hend. unfold module_name, str_find. rewrite Hend.
  destruct (find_from_spec ".py" file 0) as [[Hin _]|(pre & post & Hfile & Hf & Hmin)].
  - apply str_endswith_append in Hend as [pre Hpre].
    assert (str_in ".py" file = true) as Hin'.
    { apply str_in_substring. exists pre, ""%string. by rewrite str_append_nil_r. }
    congruence.
  - rewrite Hf. unfold slice_to.
    assert (String.length file = String.length pre + (3 + String.length post)) as Hlen.
    { rewrite Hfile at 1. rewrite !str_length_append. done. }
    replace (0 + Z.of_nat (String.length pre) <? 0)%Z with false by lia.
    replace (Z.to_nat _) with (String.length pre) by lia.
    assert (str_take (String.length pre) file = pre) as ->
      by (rewrite Hfile; apply str_take_append).
    exists post. split; [done|]. intros pre' post' Hs. exact (Hmin _ _ Hs).
Qed.

(** X12: the module name of a Python file. For a directory entry that ends
    in [.py], the module imported is named by what precedes the first
    [.py] of the entry; when the entry does not start with a dot the name
    is not empty. *)
Theorem X12_module_name_py (file : string) :
  str_endswith file ".py" = true →
  ∃ rest,
    file = (module_name file ++ ".py" ++ rest)%string
    ∧ (∀ pre post, file = (pre ++ ".py" ++ post)%string →
         String.length (module_name file) ≤ String.length pre)
    ∧ (str_startswith file "." = false → module_name file ≠ ""%string).
Proof.
  intros Hend. destruct (module_name_py file Hend) as (rest & Hfile & Hmin).
  exists rest. split; [done|]. split; [done|].
  intros Hdot Hempty. rewrite Hempty in Hfile. rewrite Hfile in Hdot. done.
Qed.

Lemma X12_module_name_py_witness :
  ∃ rest, "lamb.py"%string = (module_name "lamb.py" ++ ".py" ++ rest)%string.
Proof.
  destruct (X12_module_name_py "lamb.py" eq_refl) as (rest & Hfile & _).
  exists rest. exact Hfile.
Defined.

(** X13: a Python file whose stem has no dot. An entry [stem.py], the stem
    being not empty, without a dot and not starting with an underscore,
    passes the condition of the loop, directory or not, and is imported
    under its stem. *)
Theorem X13_module_name_stem (stem : string) (isdir : bool) :
  stem ≠ ""%string →
  str_startswith stem "_" = false →
  str_in "." stem = false →
  is_module (stem ++ ".py") isdir = true
  ∧ module_name (stem ++ ".py") = stem.
Proof.
  intros Hne Hpriv Hdot.
  assert (Hend : str_endswith (stem ++ ".py") ".py" = true)
    by (apply str_endswith_append; eauto).
  split.
  - unfold is_module. rewrite Hend.
    destruct stem as [|a stem]; [done|].
    assert (Ha : a ≠ "."%char).
    { intros ->. assert (str_in "." (String "." stem) = true) as Hin; [|congruence].
      apply str_in_substring. by exists ""%string, stem. }
    rewrite str_append_cons. unfold str_startswith in *.
    cbn [String.prefix] in *.
    destruct (Ascii.ascii_dec "_" a).
    { by rewrite str_prefix_nil in Hpriv. }
    by destruct (Ascii.ascii_dec "." a).
  - destruct (module_name_py _ Hend) as (rest & Hfile & Hmin).
    pose proof (Hmin stem ""%string eq_refl) as Hle.
    destruct (str_append_split _ _ _ _ (eq_sym Hfile) Hle) as (x & Hstem & Hx).
    destruct x as [|b x].
    + by rewrite str_append_nil_r in Hstem.
    + rewrite str_append_cons in Hx. injection Hx as <- _.
      assert (str_in "." stem = true) as Hin; [|congruence].
      apply str_in_substring. by exists (module_name (stem ++ ".py")), x.
Qed.

Lemma X13_module_name_stem_witness :
  is_module "lamb.py" false = true ∧ module_name "lamb.py" = "lamb"%string.
Proof.
  apply (X13_module_name_stem "lamb" false); [discriminate|reflexivity|reflexivity].
Defined.

Lemma module_name_public (file : string) :
  str_startswith file "_" = false → str_startswith (module_name file) "_" = false.
Proof.
  intros Hpriv. destruct (str_endswith file ".py") eqn:Hend.
  - destruct (module_name_py file Hend) as (rest & Hfile & _).
    destruct (module_name file) as [|a mn]; [done|].
    rewrite Hfile, str_append_cons in Hpriv. unfold str_startswith in *.
    cbn [String.prefix] in *. destruct (Ascii.ascii_dec "_" a); [|done].
    by rewrite str_prefix_nil in *.
  - unfold module_name. by rewrite Hend.
Qed.

(** X14: what the loop imports. Every module the loop imports comes from
    an entry of the directory that starts neither with an underscore nor
    with a dot and is a Python file or a directory, so neither
    [__init__.py] nor [__pycache__] is ever imported, and the name of the
    module does not start with an underscore either; its import did not
    raise. When no import raises, the loop returns and every such entry
    has been imported. *)
Theorem X14_imported_modules (import_fails : string → option exn)
    (entries : list (string * bool)) :
  (∀ name, name ∈ (import_modules import_fails entries).2 →
     ∃ file isdir,
       (file, isdir) ∈ entries
       ∧ name = ("bycha.optim." ++ module_name file)%string
       ∧ str_startswith file "_" = false
       ∧ str_startswith file "." = false
       ∧ (str_endswith file ".py" = true ∨ isdir = true)
       ∧ str_startswith (module_name file) "_" = false
       ∧ import_fails name = None)
  ∧ ((∀ name, import_fails name = None) →
       (import_modules import_fails entries).1 = Ok ()
       ∧ ∀ file isdir, (file, isdir) ∈ entries → is_module file isdir = true →
           ("bycha.optim." ++ module_name file)%string
           ∈ (import_modules import_fails entries).2).
Proof.
  split.
  - induction entries as [|[file isdir] entries IH]; intros name Hin; simpl in Hin.
    { by apply elem_of_nil in Hin. }
    assert (Hrest : name ∈ (import_modules import_fails entries).2 →
              ∃ file0 isdir0, (file0, isdir0) ∈ (file, isdir) :: entries
                ∧ name = ("bycha.optim." ++ module_name file0)%string
                ∧ str_startswith file0 "_" = false
                ∧ str_startswith file0 "." = false
                ∧ (str_endswith file0 ".py" = true ∨ isdir0 = true)
                ∧ str_startswith (module_name file0) "_" = false
                ∧ import_fails name = None).
    { intros H. destruct (IH name H) as (f & i & Hf & Hrest).
      exists f, i. split; [by right|done]. }
    destruct (is_module file isdir) eqn:Hmod; [|by apply Hrest].
    destruct (import_fails _) as [e|] eqn:Hfail.
    { by apply elem_of_nil in Hin. }
    destruct (import_modules import_fails entries) as [r imported]. simpl in *.
    apply elem_of_cons in Hin as [->|Hin]; [|by apply Hrest].
    exists file, isdir. unfold is_module in Hmod.
    apply andb_true_iff in Hmod as [Hmod Hkind].
    apply andb_true_iff in Hmod as [Hpriv Hdot].
    apply negb_true_iff in Hpriv, Hdot. apply orb_true_iff in Hkind.
    split; [by left|]. split; [done|]. split; [done|]. split; [done|].
    split; [done|]. split; [by apply module_name_public|done].
  - intros Hok. induction entries as [|[file isdir] entries [IHr IHin]]; simpl.
    { split; [done|]. intros ?? Hin. by apply elem_of_nil in Hin. }
    destruct (is_module file isdir) eqn:Hmod.
    + rewrite Hok. destruct (import_modules import_fails entries) as [r imported].
      simpl in *. split; [done|]. intros f i Hin Hf.
      apply elem_of_cons in Hin as [[= -> ->]|Hin]; [by left|right; eauto].
    + split; [done|]. intros f i Hin Hf.
      apply elem_of_cons in Hin as [[= -> ->]|Hin]; [congruence|eauto].
Qed.

Lemma X14_imported_modules_witness :
  (import_modules (λ _, None)
     [("__init__.py", false); ("lamb.py", false); ("__pycache__", true);
      ("schedulers", true); ("README.md", false)]).2
  = ["bycha.optim.lamb"; "bycha.optim.schedulers"]%string
  ∧ ("bycha.optim.lamb"%string
     ∈ (import_modules (λ _, None)
          [("__init__.py", false); ("lamb.py", false); ("__pycache__", true);
           ("schedulers", true); ("README.md", false)]).2).
Proof.
  split; [reflexivity|].
  apply (proj2 (proj2 (X14_imported_modules (λ _, None)
                  [("__init__.py", false); ("lamb.py", false); ("__pycache__", true);
                   ("schedulers", true); ("README.md", false)]) (λ _, eq_refl))
           "lamb.py"%string false); [|reflexivity].
  apply elem_of_cons. right. apply elem_of_cons. by left.
Defined.

(** * When [build_optimizer] returns, and how far a failed run gets *)

(** X15: when [build_optimizer] returns. If the mapping has [class] and
    [lr], the class resolves, the parameters can be grouped, and none of
    the calls of the run raises, then [build_optimizer] returns: the model
    and the handle are those [success] describes, made by exactly its
    calls, in order. *)
Theorem X15_returns (X : externals) (env : environment) m c enable_apex σ d
    name lr cl g :
  heap σ !! c = Some d →
  d !! "class" = Some name →
  let kw := try_eval X <$> delete "class" d in
  kw !! "lr" = Some lr →
  resolve_cls X name = Ok cl →
  (partition_parameters m (split_args (handle_args X) (delete "lr" kw) ∅).1).1 = Ok g →
  let out := success X env m enable_apex name kw lr cl g in
  Forall (λ c, fails X c = None) (out_calls out) →
  (build_optimizer X env m c enable_apex σ).1 = Ok (out_model out, out_handle out)
  ∧ trace (build_optimizer X env m c enable_apex σ).2 = trace σ ++ out_calls out.
Proof.
  intros Hc Hname kw Hlr Hcl Hg out Hf.
  refine (proj1 (build_optimizer_run X env m c enable_apex σ d
                   (λ r t', r = _ ∧ t' = _) Hc _ _)); [congruence|].
  intros name' l Hname'. assert (name' = name) as -> by congruence.
  eapply local_mono; [by apply assemble_returns|]. done.
Qed.

Lemma X15_returns_witness :
  ∃ m' h,
    (build_optimizer demo_X demo_cluster demo_model 0 true (demo_state demo_cfg)).1
    = Ok (m', h).
Proof.
  eexists _, _.
  apply (X15_returns demo_X demo_cluster demo_model 0 true (demo_state demo_cfg)
           demo_cfg (VStr "SGD") demo_lr "torch.optim.SGD"
           (Parameters (parameters demo_model)));
    try reflexivity.
  apply Forall_forall. intros ? _. reflexivity.
Defined.

Section segment.
Context (X : externals) (env : environment).

(** How far a run of [assemble] gets: its calls are an initial segment of
    the calls of the run that returns, cut after the logging when [lr] is
    missing, and after the scheduler when the class does not resolve or
    the grouping raises. *)
Lemma assemble_segment l (kw : dict) t m enable_apex name :
  local l kw t (assemble X env m enable_apex name l) (λ r _ t',
    ∃ cs, t' = t ++ cs
      ∧ match kw !! "lr" with
        | None => cs `prefix_of` [logger_info name kw]
        | Some lr =>
            match resolve_cls X name,
                  (partition_parameters m
                     (split_args (handle_args X) (delete "lr" kw) ∅).1).1 with
            | Ok cl, Ok g =>
                cs `prefix_of` out_calls (success X env m enable_apex name kw lr cl g)
            | _, _ =>
                cs `prefix_of` [logger_info name kw; create_rate_scheduler lr;
                                lr_scheduler_build (Scheduler lr false)]
            end
        end).
Proof.
  unfold assemble.
  local_step. local_step.
  local_step. local_step.
  { intros. exists []. rewrite app_nil_r. split; [done|].
    repeat case_match; apply prefix_nil. }
  intros _.
  local_step. local_step.
  destruct (kw !! "lr") as [lr|] eqn:Hlr.
  2:{ eexists; split; [done|]. done. }
  assert (Hshort : ∀ cs,
    cs `prefix_of` [logger_info name kw; create_rate_scheduler lr;
                    lr_scheduler_build (Scheduler lr false)] →
    match resolve_cls X name,
          (partition_parameters m (split_args (handle_args X) (delete "lr" kw) ∅).1).1 with
    | Ok cl, Ok g => cs `prefix_of` out_calls (success X env m enable_apex name kw lr cl g)
    | _, _ => cs `prefix_of` [logger_info name kw; create_rate_scheduler lr;
                              lr_scheduler_build (Scheduler lr false)]
    end).
  { intros cs [k Hk]. repeat case_match; try by exists k.
    unfold success. simpl. eexists (k ++ _). rewrite (app_assoc cs k), <- Hk. reflexivity. }
  local_step. local_step.
  { intros. eexists; split; [done|]. apply Hshort. by eexists [_; _]. }
  intros _.
  local_step. local_step.
  { intros. rewrite <- !app_assoc. eexists; split; [done|]. apply Hshort. by eexists [_]. }
  intros _.
  local_step. local_step.
  local_step. local_step.
  destruct (resolve_cls X name) as [c|] eqn:Hc.
  2:{ rewrite <- !app_assoc. eexists; split; [done|]. simpl. by exists []. }
  local_step. local_step.
  destruct (partition_parameters m _).1 as [g|] eqn:Hg.
  2:{ rewrite <- !app_assoc. eexists; split; [done|]. simpl. by exists []. }
  clear Hshort. unfold success. simpl.
  local_step. local_step.
  local_step. local_step.
  { intros. rewrite <- !app_assoc. eexists; split; [done|]. by eexists (_ :: _). }
  intros _.
  local_step. apply local_distribute.
  { intros e cs [k Hk]. rewrite <- !app_assoc. eexists; split; [done|].
    rewrite Hk. simpl. rewrite <- !app_assoc. do 4 apply prefix_cons. by eexists. }
  intros _.
  local_step. apply local_apex.
  { intros e. rewrite <- !app_assoc. eexists; split; [done|].
    simpl. do 4 apply prefix_cons. by eexists. }
  intros _.
  local_step. local_step.
  { intros. rewrite <- !app_assoc. eexists; split; [done|].
    simpl. do 4 apply prefix_cons. rewrite app_assoc. by eexists. }
  intros _. local_step.
  rewrite <- !app_assoc. eexists; split; [done|]. done.
Qed.

End segment.

(** X16: how far a run gets. The calls of any run of [build_optimizer],
    failed or not, are an initial segment of the calls a run that returns
    makes, in their order: nothing comes after the logging when [lr] is
    missing, nothing after the building of the scheduler when the class
    does not resolve or the grouping of the parameters raises. *)
Theorem X16_calls_initial_segment (X : externals) (env : environment) m c enable_apex
    σ d name :
  heap σ !! c = Some d →
  d !! "class" = Some name →
  let kw := try_eval X <$> delete "class" d in
  ∃ cs, trace (build_optimizer X env m c enable_apex σ).2 = trace σ ++ cs
    ∧ match kw !! "lr" with
      | None => cs `prefix_of` [logger_info name kw]
      | Some lr =>
          match resolve_cls X name,
                (partition_parameters m
                   (split_args (handle_args X) (delete "lr" kw) ∅).1).1 with
          | Ok cl, Ok g =>
              cs `prefix_of` out_calls (success X env m enable_apex name kw lr cl g)
          | _, _ =>
              cs `prefix_of` [logger_info name kw; create_rate_scheduler lr;
                              lr_scheduler_build (Scheduler lr false)]
          end
      end.
Proof.
  intros Hc Hname kw.
  refine (proj1 (build_optimizer_run X env m c enable_apex σ d
                   (λ _ t', ∃ cs, t' = _ ++ cs ∧ _) Hc _ _)); [congruence|].
  intros name' l Hname'. assert (name' = name) as -> by congruence.
  eapply local_mono; [apply assemble_segment|]. done.
Qed.

Lemma X16_calls_initial_segment_witness :
  ∃ cs, trace (build_optimizer demo_X demo_cluster demo_model 0 true
                 (demo_state demo_cfg_unknown)).2 = [] ++ cs
        ∧ cs `prefix_of` [logger_info (VStr "frobnicator") {[ "lr" := demo_lr ]};
                          create_rate_scheduler demo_lr;
                          lr_scheduler_build (Scheduler demo_lr false)].
Proof.
  destruct (X16_calls_initial_segment demo_X demo_cluster demo_model 0 true
              (demo_state demo_cfg_unknown) demo_cfg_unknown (VStr "frobnicator")
              eq_refl eq_refl) as (cs & Ht & Hcs).
  exists cs. split; [exact Ht|]. exact Hcs.
Defined.

(** * The tokenizer *)

Lemma py_slice_inner {A} (b e : A) (mid : list A) :
  py_slice (b :: mid ++ [e]) 1 (-1) = mid.
Proof.
  unfold py_slice. simpl length. rewrite length_app. simpl length.
  replace (1 <? 0)%Z with false by lia. replace (-1 <? 0)%Z with true by lia.
  replace (Z.to_nat (Z.min 1 _)) with 1 by lia.
  replace (Z.to_nat (Z.max 0 _)) with (S (length mid)) by lia.
  simpl. replace (length mid - 0) with (length mid) by lia.
  by rewrite drop_0, take_app_length.
Qed.

Lemma py_slice_short {A} (l : list A) : length l ≤ 2 → py_slice l 1 (-1) = [].
Proof.
  intros Hl. unfold py_slice.
  replace (1 <? 0)%Z with false by lia. replace (-1 <? 0)%Z with true by lia.
  replace (Z.to_nat (Z.max 0 (Z.of_nat (length l) + -1))
           - Z.to_nat (Z.min 1 (Z.of_nat (length l)))) with 0 by lia.
  done.
Qed.

(** X17: what [encode] hands to the tokenizer. A sentence given alone or
    as the only element of a list is encoded alike: the list is unwrapped,
    and a sentence of one character is its own first character. Lists of
    any other length are passed on whole. Only one level is unwrapped. *)
Theorem X17_encode_unwraps (tok_encode : value → list value → result (list Z))
    (s : string) (l : list value) (args : list value) :
  encode tok_encode (VStr s) args = tok_encode (VStr s) args
  ∧ encode tok_encode (VList [VStr s]) args = tok_encode (VStr s) args
  ∧ encode tok_encode (VList [VList l]) args = tok_encode (VList l) args
  ∧ (length l ≠ 1 → encode tok_encode (VList l) args = tok_encode (VList l) args).
Proof.
  unfold encode. simpl. split; [|split; [done|split; [done|]]].
  - destruct s as [|a [|b s]]; done.
  - intros Hl. destruct (length l =? 1) eqn:Hn; [|done].
    apply Nat.eqb_eq in Hn. done.
Qed.

(** X18: [token2index] drops the first and the last identifier of the
    encoding (the markers of the beginning and of the end of the
    sentence); an encoding of at most two identifiers leaves nothing, an
    error of the encoding is passed on, and a call without argument is a
    [TypeError]. *)
Theorem X18_token2index_strips (tok_encode : value → list value → result (list Z))
    (input : value) (args : list value) :
  (∀ b mid e, encode tok_encode input args = Ok (b :: mid ++ [e]) →
     token2index tok_encode (input :: args) = Ok mid)
  ∧ (∀ ids, encode tok_encode input args = Ok ids → length ids ≤ 2 →
       token2index tok_encode (input :: args) = Ok [])
  ∧ (∀ err, encode tok_encode input args = Raise err →
       token2index tok_encode (input :: args) = Raise err)
  ∧ raises (token2index tok_encode []).
Proof.
  unfold token2index. split; [|split; [|split]].
  - intros b mid e ->. by rewrite py_slice_inner.
  - intros ids -> Hl. by rewrite py_slice_short.
  - by intros err ->.
  - by eexists.
Qed.

Lemma X18_token2index_strips_witness :
  token2index (λ _ _, Ok [101; 7592; 2088; 102]%Z) [VStr "hello world"]
  = Ok [7592; 2088]%Z.
Proof.
  apply (proj1 (X18_token2index_strips (λ _ _, Ok [101; 7592; 2088; 102]%Z)
                  (VStr "hello world") []) 101%Z [7592; 2088]%Z 102%Z).
  reflexivity.
Defined.

Lemma X17_encode_unwraps_witness :
  encode (λ v _, match v with VStr _ => Ok [1%Z] | _ => Ok [] end)
    (VList [VStr "hello"]) []
  = Ok [1%Z].
Proof.
  rewrite (proj1 (proj2 (X17_encode_unwraps
             (λ v _, match v with VStr _ => Ok [1%Z] | _ => Ok [] end)
             "hello" [] []))).
  reflexivity.
Defined.
